(** * go-game-explorer: the catalog store, the refresh loop and the stream session

    A shallow embedding of [main.go]: the [Game] record and its JSON
    encoding, the [GameStore] with its three methods, [fetchGames] and the
    refresh loop of [main], [statsHandler] and [streamHandler], and the
    script of the page in [htmlTemplate].  The store methods also get a
    small-step semantics, one step per access to the lock or to the
    [games] field, with which the reader/writer lock is proved to make
    every method atomic, and a second one with the rule of [sync.RWMutex]
    that a waiting writer goes first, for the absence of deadlock. *)

From Stdlib Require Import ZArith Ascii String.
From stdpp Require Import base numbers strings list gmap relations pretty.

Local Open Scope Z_scope.

(** ** Strings of the source that hold a quote or a newline *)

Definition dq : string := String (ascii_of_nat 34) EmptyString.
Definition nl : string := String (ascii_of_nat 10) EmptyString.

(** ** Results of code that can panic *)

Inductive result (A : Type) : Type :=
| Ok (a : A)
| Panic (msg : string).
Arguments Ok {A} a.
Arguments Panic {A} msg.

Definition bind {A B : Type} (r : result A) (k : A -> result B) : result B :=
  match r with
  | Ok a => k a
  | Panic m => Panic m
  end.

Notation "'letR' x := r 'in' k" := (bind r (fun x => k))
  (at level 10, x name, r at level 100, k at level 200).

(** ** The data model *)

(** [type Game struct]: [ID] is a Go [int], the other fields are strings. *)
Record Game : Type := mkGame {
  ID : Z;
  Title : string;
  Thumbnail : string;
  ShortDescription : string;
  GameURL : string;
  Genre : string;
  Platform : string;
  Publisher : string;
  Developer : string;
  ReleaseDate : string
}.

(** [Game{}], the zero value. *)
Definition Game_zero : Game :=
  mkGame 0 EmptyString EmptyString EmptyString EmptyString EmptyString
         EmptyString EmptyString EmptyString EmptyString.

(** [sync.RWMutex]: whether a writer holds it, and how many readers do. *)
Record RWMutex : Type := mkRWMutex {
  writer : bool;
  readers : nat
}.

(** [type GameStore struct]. *)
Record GameStore : Type := mkGameStore {
  games : list Game;
  mu : RWMutex
}.

(** [var store = &GameStore{}]: a nil slice and an unlocked mutex. *)
Definition store_init : GameStore := mkGameStore [] (mkRWMutex false 0).

(** [len(s)] as a Go [int]. *)
Definition len {A : Type} (l : list A) : Z := Z.of_nat (length l).

(** [s[i]]: a run-time panic outside [0 <= i < len(s)]. *)
Definition index {A : Type} (l : list A) (i : Z) : result A :=
  if decide (0 <= i) then
    match l !! Z.to_nat i with
    | Some a => Ok a
    | None => Panic "index out of range"
    end
  else Panic "index out of range".

(** ** The random source

    [math/rand] is a library: a source is a state with a draw that, for a
    positive bound [n], yields a number in [[0, n)] and the next state. *)
Record RandSource : Type := mkRandSource {
  rng : Type;
  draw : rng -> Z -> Z * rng;
  draw_range : forall (r : rng) (n : Z), 0 < n -> 0 <= (draw r n).1 < n
}.

(** [rand.Intn(n)]: it panics if [n <= 0]. *)
Definition Intn (R : RandSource) (r : rng R) (n : Z) : result (Z * rng R) :=
  if decide (n <= 0) then Panic "invalid argument to Intn"
  else Ok (draw R r n).

(** A source to run the definitions on: a counter reduced modulo the bound. *)
Program Definition counter_source : RandSource :=
  {| rng := Z; draw := fun r n => (r mod n, r + 1) |}.
Next Obligation.
  intros r n Hn. simpl. apply Z.mod_pos_bound. exact Hn.
Qed.

(** ** The store's methods, run one at a time

    Each method takes the lock on entry and releases it on return
    ([defer]); run alone on an unlocked store it leaves [mu] as it
    found it. *)

(** [func (s *GameStore) SetGames(games []Game)]. *)
Definition SetGames (s : GameStore) (gs : list Game) : GameStore :=
  mkGameStore gs (mu s).

(** [func (s *GameStore) GetRandom() (Game, bool)]. *)
Definition GetRandom (R : RandSource) (s : GameStore) (r : rng R)
  : result ((Game * bool) * rng R) :=
  if decide (len (games s) = 0) then Ok ((Game_zero, false), r)
  else
    letR d := Intn R r (len (games s)) in
    letR g := index (games s) d.1 in
    Ok ((g, true), d.2).

(** [func (s *GameStore) Count() int]. *)
Definition Count (s : GameStore) : Z := len (games s).

(** ** JSON *)

(** The values the handlers encode: numbers and strings. *)
Inductive JSON : Type :=
| JInt (z : Z)
| JStr (s : string).

(** The struct tags of [Game], in the order of the fields: what
    [json.Marshal] writes for a [Game], name by name. *)
Definition Game_fields (g : Game) : list (string * JSON) :=
  [ ("id", JInt (ID g));
    ("title", JStr (Title g));
    ("thumbnail", JStr (Thumbnail g));
    ("short_description", JStr (ShortDescription g));
    ("game_url", JStr (GameURL g));
    ("genre", JStr (Genre g));
    ("platform", JStr (Platform g));
    ("publisher", JStr (Publisher g));
    ("developer", JStr (Developer g));
    ("release_date", JStr (ReleaseDate g)) ].

Section Encoding.

(** [encoding/json]'s quoting of a string value, escapes and all. *)
Variable encodeString : string -> string.

Definition encodeValue (v : JSON) : string :=
  match v with
  | JInt z => pretty z
  | JStr s => encodeString s
  end.

Definition encodeField (kv : string * JSON) : string :=
  dq +:+ kv.1 +:+ dq +:+ ":" +:+ encodeValue kv.2.

Definition encodeObject (fs : list (string * JSON)) : string :=
  "{" +:+ String.concat "," (map encodeField fs) +:+ "}".

(** [json.Marshal(game)]; it cannot fail on a [Game]. *)
Definition Marshal (g : Game) : string := encodeObject (Game_fields g).

End Encoding.

(** A quoting for strings that need no escape. *)
Definition quote_plain (s : string) : string := dq +:+ s +:+ dq.

(** ** The process: store, random source, log *)

(** What [log.Printf] is called with. *)
Inductive LogEntry : Type :=
| LogLoaded (n : Z)              (* "Loaded %d games from FreeToGame API" *)
| LogWarning (err : string)      (* "Warning: Could not fetch games: %v" *)
| LogRefreshFailed (err : string). (* "Refresh failed: %v" *)

(** What one call of [fetchGames] meets on the network. *)
Inductive Fetch : Type :=
| GetFailed (err : string)       (* [client.Get] returns an error *)
| DecodeFailed (err : string)    (* [Decode] returns an error *)
| Decoded (gs : list Game).      (* the body decodes to [gs] *)

(** The error of a fetch that fails. *)
Definition fetch_error (f : Fetch) : option string :=
  match f with
  | GetFailed err | DecodeFailed err => Some err
  | Decoded _ => None
  end.

(** What a handler does to its connection. *)
Inductive Out : Type :=
| Fprintf (s : string)                      (* [fmt.Fprintf(c.Writer, ...)] *)
| Flush                                     (* [flusher.Flush()] *)
| RespondJSON (code : Z) (obj : gmap string JSON). (* [c.JSON(code, gin.H{...})] *)

(** [*gin.Context], as far as the handlers use it: the response headers,
    the outcome of the assertion [c.Writer.(http.Flusher)], and what was
    sent so far, oldest first.  [c.Writer] is a [gin.ResponseWriter], an
    interface with the method [Flush], so in the program the assertion
    succeeds on every request, whatever the transport: [isFlusher] is
    [true] there, and [false] only follows the branch the source has for
    a failed assertion. *)
Record GinContext : Type := mkGinContext {
  Header : gmap string string;
  isFlusher : bool;
  wire : list Out
}.

Definition send (outs : list Out) (c : GinContext) : GinContext :=
  mkGinContext (Header c) (isFlusher c) (wire c ++ outs).

Definition HeaderSet (k v : string) (c : GinContext) : GinContext :=
  mkGinContext (<[k := v]> (Header c)) (isFlusher c) (wire c).

(** The outcomes of the [select] in [streamHandler]. *)
Inductive Select : Type :=
| CtxDone     (* [<-c.Request.Context().Done()] *)
| TickerC.    (* [<-ticker.C] *)

(** A run of [streamHandler]: its connection, its ticker ([None] before
    [time.NewTicker], [Some true] while it runs, [Some false] after
    [ticker.Stop()]) and whether it has returned. *)
Record Session : Type := mkSession {
  ctx : GinContext;
  ticker : option bool;
  returned : bool
}.

(** The message of the empty catalog. *)
Definition noGamesEvent : string :=
  "event: error" +:+ nl +:+ "data: {" +:+ dq +:+ "message" +:+ dq +:+ ":"
  +:+ dq +:+ "No games available" +:+ dq +:+ "}" +:+ nl +:+ nl.

Section Server.

Context (R : RandSource) (encodeString : string -> string).

Record World : Type := mkWorld {
  store : GameStore;
  rand : rng R;
  logs : list LogEntry
}.

Definition logPrintf (e : LogEntry) (w : World) : World :=
  mkWorld (store w) (rand w) (logs w ++ [e]).

(** [func fetchGames() error]. *)
Definition fetchGames (f : Fetch) (w : World) : World * option string :=
  match f with
  | GetFailed err => (w, Some err)
  | DecodeFailed err => (w, Some err)
  | Decoded gs =>
      let w1 := mkWorld (SetGames (store w) gs) (rand w) (logs w) in
      (logPrintf (LogLoaded (len gs)) w1, None)
  end.

(** [main]: the fetch before serving begins. *)
Definition main_startup (f : Fetch) (w : World) : World :=
  match fetchGames f w with
  | (w', Some err) => logPrintf (LogWarning err) w'
  | (w', None) => w'
  end.

(** [main]: the body of [for range ticker.C] in the refresh goroutine. *)
Definition main_refresh (f : Fetch) (w : World) : World :=
  match fetchGames f w with
  | (w', Some err) => logPrintf (LogRefreshFailed err) w'
  | (w', None) => w'
  end.

(** [func statsHandler(c *gin.Context)]. *)
Definition statsHandler (c : GinContext) (w : World) : GinContext :=
  send [RespondJSON 200
          (<["total_games" := JInt (Count (store w))]>
             (<["status" := JStr "online"]> ∅))] c.

(** The closure [sendGame] of [streamHandler]. *)
Definition sendGame (c : GinContext) (w : World) : result (GinContext * World) :=
  letR p := GetRandom R (store w) (rand w) in
  let w' := mkWorld (store w) p.2 (logs w) in
  if negb p.1.2 then
    Ok (send [Fprintf noGamesEvent; Flush] c, w')
  else
    let data := Marshal encodeString p.1.1 in
    Ok (send [Fprintf ("data: " +:+ data +:+ nl +:+ nl); Flush] c, w').

(** [streamHandler] from its entry to the [select]. *)
Definition streamHandler_enter (c : GinContext) (w : World)
  : result (Session * World) :=
  let c := HeaderSet "Content-Type" "text/event-stream" c in
  let c := HeaderSet "Cache-Control" "no-cache" c in
  let c := HeaderSet "Connection" "keep-alive" c in
  let c := HeaderSet "Access-Control-Allow-Origin" "*" c in
  let c := HeaderSet "X-Accel-Buffering" "no" c in
  if negb (isFlusher c) then
    Ok (mkSession
          (send [RespondJSON 500 (<["error" := JStr "SSE not supported"]> ∅)] c)
          None true, w)
  else
    letR p := sendGame c w in
    Ok (mkSession p.1 (Some true) false, p.2).

(** One turn of the [for { select { ... } }] of [streamHandler]; a
    handler that has returned takes no more turns. *)
Definition streamHandler_select (ev : Select) (s : Session) (w : World)
  : result (Session * World) :=
  if returned s then Ok (s, w)
  else
    match ev with
    | CtxDone => Ok (mkSession (ctx s) (Some false) true, w)
    | TickerC =>
        letR p := sendGame (ctx s) w in
        Ok (mkSession p.1 (ticker s) false, p.2)
    end.

(** What happens while a session is open: its [select] fires, or the
    refresh goroutine runs [fetchGames]. *)
Inductive SysEvent : Type :=
| Sel (ev : Select)
| Refresh (f : Fetch).

Definition sys_step (e : SysEvent) (st : Session * World)
  : result (Session * World) :=
  match e with
  | Sel ev => streamHandler_select ev st.1 st.2
  | Refresh f => Ok (st.1, main_refresh f st.2)
  end.

(** The refresh goroutine of [main] over the fetches it meets. *)
Fixpoint refresh_loop (fs : list Fetch) (w : World) : World :=
  match fs with
  | [] => w
  | f :: fs' => refresh_loop fs' (main_refresh f w)
  end.

Fixpoint run (es : list SysEvent) (st : Session * World)
  : result (Session * World) :=
  match es with
  | [] => Ok st
  | e :: es' => letR st' := sys_step e st in run es' st'
  end.

Definition is_tick (e : SysEvent) : bool :=
  match e with
  | Sel TickerC => true
  | _ => false
  end.

Definition is_done (e : SysEvent) : bool :=
  match e with
  | Sel CtxDone => true
  | _ => false
  end.

(** How often the ticker fires in a run of events. *)
Definition ticks (es : list SysEvent) : nat := length (filter is_tick es).

(** The messages a connection has received: each [Fprintf]. *)
Definition messages (c : GinContext) : list string :=
  omap (fun o => match o with Fprintf s => Some s | _ => None end) (wire c).

End Server.

(** ** The store's methods, step by step

    Each goroutine that calls a method of the store is a thread standing at
    one statement of it; a step runs that statement.  The lock operations,
    each read of [s.games] and the write to it are steps of their own, so
    every interleaving the lock allows is a run. *)

(** [mu.Lock()]: it waits for the writer and for all readers to leave. *)
Definition Lock (m : RWMutex) : option RWMutex :=
  if writer m then None
  else match readers m with
       | O => Some (mkRWMutex true O)
       | S _ => None
       end.

(** [mu.Unlock()]: a fatal error on a mutex no writer holds. *)
Definition Unlock (m : RWMutex) : result RWMutex :=
  if writer m then Ok (mkRWMutex false (readers m))
  else Panic "sync: Unlock of unlocked RWMutex".

(** [mu.RLock()]: it waits for the writer to leave.  This is the least a
    reader waits: [sync.RWMutex] also holds it back while a writer waits
    in [Lock], which only removes runs; the steps with that rule are
    [step_wp] below. *)
Definition RLock (m : RWMutex) : option RWMutex :=
  if writer m then None
  else Some (mkRWMutex false (S (readers m))).

(** [mu.RUnlock()]: a fatal error on a mutex no reader holds. *)
Definition RUnlock (m : RWMutex) : result RWMutex :=
  match readers m with
  | O => Panic "sync: RUnlock of unlocked RWMutex"
  | S n => Ok (mkRWMutex (writer m) n)
  end.

(** A call of a method of the store, at the statement it runs next. *)
Inductive Thread : Type :=
| SetGames_Lock (gs : list Game)        (* [s.mu.Lock()] *)
| SetGames_assign (gs : list Game)      (* [s.games = games] *)
| SetGames_Unlock                       (* the deferred [s.mu.Unlock()] *)
| SetGames_done
| GetRandom_RLock                       (* [s.mu.RLock()] *)
| GetRandom_len                         (* [if len(s.games) == 0] *)
| GetRandom_Intn                        (* [rand.Intn(len(s.games))] *)
| GetRandom_index (i : Z)               (* [s.games[i]] *)
| GetRandom_RUnlock (res : Game * bool) (* the deferred [s.mu.RUnlock()] *)
| GetRandom_done (res : Game * bool)
| Count_RLock                           (* [s.mu.RLock()] *)
| Count_len                             (* [len(s.games)] *)
| Count_RUnlock (n : Z)                 (* the deferred [s.mu.RUnlock()] *)
| Count_done (n : Z)
| Panicked (msg : string).

(** A thread at the entry of a method. *)
Definition initial (t : Thread) : bool :=
  match t with
  | SetGames_Lock _ | GetRandom_RLock | Count_RLock => true
  | _ => false
  end.

(** A thread between its [RLock] and its [RUnlock]. *)
Definition reading (t : Thread) : bool :=
  match t with
  | GetRandom_len | GetRandom_Intn | GetRandom_index _ | GetRandom_RUnlock _
  | Count_len | Count_RUnlock _ => true
  | _ => false
  end.

(** A thread between its [Lock] and its [Unlock]. *)
Definition writing (t : Thread) : bool :=
  match t with
  | SetGames_assign _ | SetGames_Unlock => true
  | _ => false
  end.

(** A thread that has returned. *)
Definition finished (t : Thread) : bool :=
  match t with
  | SetGames_done | GetRandom_done _ | Count_done _ => true
  | _ => false
  end.

(** The catalog a thread has yet to install. *)
Definition pending (t : Thread) : option (list Game) :=
  match t with
  | SetGames_Lock gs | SetGames_assign gs => Some gs
  | _ => None
  end.

Section Steps.

Context (R : RandSource).

(** The process: the store, the random source all goroutines share, and
    the threads. *)
Record State : Type := mkState {
  shared : GameStore;
  source : rng R;
  threads : list Thread
}.

Definition with_mu (m : RWMutex) (s : GameStore) : GameStore :=
  mkGameStore (games s) m.

(** One statement of a thread; [None] where the thread waits for the lock
    or has nothing left to run.  A panic ends the thread. *)
Definition thread_step (s : GameStore) (r : rng R) (t : Thread)
  : option (GameStore * rng R * Thread) :=
  match t with
  | SetGames_Lock gs =>
      m ← Lock (mu s); Some (with_mu m s, r, SetGames_assign gs)
  | SetGames_assign gs =>
      Some (mkGameStore gs (mu s), r, SetGames_Unlock)
  | SetGames_Unlock =>
      match Unlock (mu s) with
      | Ok m => Some (with_mu m s, r, SetGames_done)
      | Panic msg => Some (s, r, Panicked msg)
      end
  | GetRandom_RLock =>
      m ← RLock (mu s); Some (with_mu m s, r, GetRandom_len)
  | GetRandom_len =>
      if decide (len (games s) = 0)
      then Some (s, r, GetRandom_RUnlock (Game_zero, false))
      else Some (s, r, GetRandom_Intn)
  | GetRandom_Intn =>
      match Intn R r (len (games s)) with
      | Ok d => Some (s, d.2, GetRandom_index d.1)
      | Panic msg => Some (s, r, Panicked msg)
      end
  | GetRandom_index i =>
      match index (games s) i with
      | Ok g => Some (s, r, GetRandom_RUnlock (g, true))
      | Panic msg => Some (s, r, Panicked msg)
      end
  | GetRandom_RUnlock res =>
      match RUnlock (mu s) with
      | Ok m => Some (with_mu m s, r, GetRandom_done res)
      | Panic msg => Some (s, r, Panicked msg)
      end
  | Count_RLock =>
      m ← RLock (mu s); Some (with_mu m s, r, Count_len)
  | Count_len =>
      Some (s, r, Count_RUnlock (len (games s)))
  | Count_RUnlock n =>
      match RUnlock (mu s) with
      | Ok m => Some (with_mu m s, r, Count_done n)
      | Panic msg => Some (s, r, Panicked msg)
      end
  | SetGames_done | GetRandom_done _ | Count_done _ | Panicked _ => None
  end.

(** The scheduler gives thread [k] a turn; a thread that cannot move, or
    that does not exist, leaves the state as it is. *)
Definition step (k : nat) (st : State) : State :=
  match threads st !! k with
  | Some t =>
      match thread_step (shared st) (source st) t with
      | Some (s', r', t') => mkState s' r' (<[k := t']> (threads st))
      | None => st
      end
  | None => st
  end.

(** A run under a schedule, the list of the threads in the order of their
    turns. *)
Fixpoint exec (sched : list nat) (st : State) : State :=
  match sched with
  | [] => st
  | k :: sched' => exec sched' (step k st)
  end.

End Steps.

(** The catalogs a process can ever hold: the one installed at the start
    and those its [SetGames] calls bring. *)
Definition catalogs (old : list Game) (ts : list Thread) : list (list Game) :=
  old :: omap pending ts.

(** What a thread holds, against the catalog [gs] installed now and the
    catalogs [C] of the process: inside [GetRandom] and [Count], between
    [RLock] and [RUnlock], every value read agrees with [gs]; a result
    returned comes from one catalog of [C]; no thread has panicked. *)
Definition consistent (C : list (list Game)) (gs : list Game) (t : Thread)
  : Prop :=
  match t with
  | SetGames_Lock new | SetGames_assign new => new ∈ C
  | GetRandom_Intn => gs <> []
  | GetRandom_index i => 0 <= i < len gs
  | GetRandom_RUnlock (g, true) => g ∈ gs
  | GetRandom_RUnlock (g, false) => g = Game_zero /\ gs = []
  | Count_RUnlock n => n = len gs
  | GetRandom_done (g, true) => exists cat, cat ∈ C /\ g ∈ cat
  | GetRandom_done (g, false) => g = Game_zero /\ [] ∈ C
  | Count_done n => exists cat, cat ∈ C /\ n = len cat
  | Panicked _ => False
  | _ => True
  end.

(** How many threads are at a statement of a kind. *)
Fixpoint count (p : Thread -> bool) (ts : list Thread) : nat :=
  match ts with
  | [] => 0
  | t :: ts' => (if p t then 1 else 0) + count p ts'
  end.

(** The lock counts its holders: the readers between [RLock] and
    [RUnlock], the one writer between [Lock] and [Unlock], and never both. *)
Definition lock_counts (m : RWMutex) (ts : list Thread) : Prop :=
  readers m = count reading ts
  /\ count writing ts = (if writer m then 1%nat else 0%nat)
  /\ (writer m = true -> readers m = 0%nat).

(** The invariant of a run. *)
Definition inv (R : RandSource) (C : list (list Game)) (st : State R) : Prop :=
  lock_counts (mu (shared R st)) (threads R st)
  /\ games (shared R st) ∈ C
  /\ Forall (consistent C (games (shared R st))) (threads R st).

(** ** The page: the script of [htmlTemplate]

    The script keeps three variables and reads or writes seven elements of
    the document.  What the browser does for it is a parameter: parsing the
    data of a message, reading [game.id], and evaluating the template of a
    card, each of which can throw. *)
Record Browser : Type := mkBrowser {
  Key : Type;                          (* the values [game.id] can have *)
  Key_eq : EqDecision Key;
  Key_countable : Countable Key;
  JsValue : Type;                      (* what [JSON.parse] returns *)
  Card : Type;                         (* a card of the grid *)
  JSON_parse : string -> option JsValue;   (* [None]: it throws *)
  get_id : JsValue -> option Key;          (* [None]: [game.id] throws *)
  render_card : JsValue -> option Card     (* [None]: the template throws *)
}.

#[global] Existing Instance Key_eq.
#[global] Existing Instance Key_countable.

(** The variables of the script and the elements it uses. *)
Record Page (B : Browser) : Type := mkPage {
  eventSource : option string;         (* [null], or the source of a URL *)
  discoveredCount : Z;
  discoveredGames : gset (Key B);
  status : string;                     (* [#status], its text *)
  discovered : string;                 (* [#discovered], its text *)
  totalGames : string;                 (* [#totalGames], its text *)
  startBtn_disabled : bool;
  stopBtn_disabled : bool;
  emptyState_hidden : bool;            (* [#emptyState] has class [hidden] *)
  gamesGrid : list (Card B)            (* the children of [#gamesGrid] *)
}.
Arguments mkPage {B}.
Arguments eventSource {B}.
Arguments discoveredCount {B}.
Arguments discoveredGames {B}.
Arguments status {B}.
Arguments discovered {B}.
Arguments totalGames {B}.
Arguments startBtn_disabled {B}.
Arguments stopBtn_disabled {B}.
Arguments emptyState_hidden {B}.
Arguments gamesGrid {B}.

(** The page as [htmlTemplate] has it, before any event. *)
Definition page_init (B : Browser) : Page B :=
  mkPage None 0 ∅ "Connecting..." "0" "500+" false true false [].

(** The [while (grid.children.length > 20)] of [addGameCard], for at most
    [fuel] rounds. *)
Fixpoint trim_grid {A : Type} (fuel : nat) (grid : list A) : list A :=
  match fuel with
  | O => grid
  | S fuel' =>
      if decide (20 < length grid)%nat
      then trim_grid fuel' (removelast grid)
      else grid
  end.

(** [addGameCard], on the card made: it goes in front, and the loop
    removes last children; the loop has no more rounds than children. *)
Definition addGameCard {A : Type} (card : A) (grid : list A) : list A :=
  trim_grid (S (length grid)) (card :: grid).

Section Script.

Context (B : Browser).

(** The callback of [fetch('/stats')], on the number in [total_games]. *)
Definition stats_loaded (total_games : Z) (p : Page B) : Page B :=
  mkPage (eventSource p) (discoveredCount p) (discoveredGames p) (status p)
         (discovered p)
         (if decide (total_games = 0) then "500+" else pretty total_games)
         (startBtn_disabled p) (stopBtn_disabled p) (emptyState_hidden p)
         (gamesGrid p).

(** [function startStream()]. *)
Definition startStream (p : Page B) : Page B :=
  match eventSource p with
  | Some _ => p
  | None =>
      mkPage (Some "/stream") (discoveredCount p) (discoveredGames p)
             "Live Streaming" (discovered p) (totalGames p)
             true false true (gamesGrid p)
  end.

(** [function stopStream()]. *)
Definition stopStream (p : Page B) : Page B :=
  mkPage None (discoveredCount p) (discoveredGames p)
         "Stopped" (discovered p) (totalGames p)
         false true (emptyState_hidden p) (gamesGrid p).

(** [function clearGames()]. *)
Definition clearGames (p : Page B) : Page B :=
  mkPage (eventSource p) 0 ∅ (status p) "0" (totalGames p)
         (startBtn_disabled p) (stopBtn_disabled p) false [].

(** [eventSource.onmessage], on the data of the event: the body of the
    [try], left where something throws. *)
Definition onmessage (data : string) (p : Page B) : Page B :=
  match JSON_parse B data with
  | None => p
  | Some game =>
      match get_id B game with
      | None => p
      | Some k =>
          let p1 :=
            if decide (k ∈ discoveredGames p) then p
            else
              mkPage (eventSource p) (discoveredCount p + 1)
                     ({[k]} ∪ discoveredGames p) (status p)
                     (pretty (discoveredCount p + 1)) (totalGames p)
                     (startBtn_disabled p) (stopBtn_disabled p)
                     (emptyState_hidden p) (gamesGrid p) in
          match render_card B game with
          | None => p1
          | Some card =>
              mkPage (eventSource p1) (discoveredCount p1)
                     (discoveredGames p1) (status p1) (discovered p1)
                     (totalGames p1) (startBtn_disabled p1)
                     (stopBtn_disabled p1) (emptyState_hidden p1)
                     (addGameCard card (gamesGrid p1))
          end
      end
  end.

(** [eventSource.onerror], up to [setTimeout]. *)
Definition onerror (p : Page B) : Page B :=
  mkPage (eventSource p) (discoveredCount p) (discoveredGames p)
         "Reconnecting..." (discovered p) (totalGames p)
         (startBtn_disabled p) (stopBtn_disabled p) (emptyState_hidden p)
         (gamesGrid p).

(** The callback [onerror] gives to [setTimeout]. *)
Definition reconnect (p : Page B) : Page B :=
  match eventSource p with
  | Some _ => startStream (stopStream p)
  | None => p
  end.

(** What can happen to the page.  A source that is closed delivers no
    event: messages and errors reach the handlers only while
    [eventSource] is set. *)
Inductive PageEvent : Type :=
| StatsLoaded (total_games : Z)
| ClickStart
| ClickStop
| ClickClear
| Message (data : string)
| SourceError
| Timeout.

Definition page_step (e : PageEvent) (p : Page B) : Page B :=
  match e with
  | StatsLoaded n => stats_loaded n p
  | ClickStart => startStream p
  | ClickStop => stopStream p
  | ClickClear => clearGames p
  | Message data =>
      match eventSource p with
      | Some _ => onmessage data p
      | None => p
      end
  | SourceError =>
      match eventSource p with
      | Some _ => onerror p
      | None => p
      end
  | Timeout => reconnect p
  end.

Definition page_run (es : list PageEvent) (p : Page B) : Page B :=
  foldl (fun p e => page_step e p) p es.

End Script.

(** A browser to run the script on: a value is the number the data is long,
    which is its own id; data of length 13 has no card. *)
Definition sample_browser : Browser :=
  mkBrowser Z _ _ Z Z
    (fun data => if decide (data = "bad") then None
                 else Some (Z.of_nat (String.length data)))
    (fun v => Some v)
    (fun v => if decide (v = 13) then None else Some v).

(** ** Measures of a run of threads *)

(** The statements a thread has left at most. *)
Definition remaining (t : Thread) : nat :=
  match t with
  | SetGames_Lock _ => 3
  | SetGames_assign _ => 2
  | SetGames_Unlock => 1
  | GetRandom_RLock => 5
  | GetRandom_len => 4
  | GetRandom_Intn => 3
  | GetRandom_index _ => 2
  | GetRandom_RUnlock _ => 1
  | Count_RLock => 3
  | Count_len => 2
  | Count_RUnlock _ => 1
  | SetGames_done | GetRandom_done _ | Count_done _ | Panicked _ => 0
  end.

Fixpoint work (ts : list Thread) : nat :=
  match ts with
  | [] => 0
  | t :: ts' => remaining t + work ts'
  end.

(** A [SetGames] call that has made its assignment. *)
Definition assigned (t : Thread) : bool :=
  match t with
  | SetGames_Unlock | SetGames_done => true
  | _ => false
  end.

(** ** What a run of events holds *)

(** The fetches of the refresh goroutine among the events. *)
Definition fetches (es : list SysEvent) : list Fetch :=
  omap (fun e => match e with Refresh f => Some f | Sel _ => None end) es.

(** The events up to the first [ctx.Done]. *)
Fixpoint until_done (es : list SysEvent) : list SysEvent :=
  match es with
  | [] => []
  | e :: es' => if is_done e then [] else e :: until_done es'
  end.

(** The catalog of the last fetch that decoded, if one did. *)
Definition last_decoded (fs : list Fetch) : option (list Game) :=
  foldl (fun acc f => match f with Decoded gs => Some gs | _ => acc end)
        None fs.

(** Messages on the wire: each one written, then flushed. *)
Definition frames (ms : list string) : list Out :=
  ms ≫= (fun m => [Fprintf m; Flush]).

(** ** Catalogs and runs to evaluate the definitions on *)

Definition sample_game (id : Z) (title : string) : Game :=
  mkGame id title "thumb.jpg" "A free game" "https://example.com/game"
         "Shooter" "PC (Windows)" "Publisher" "Developer" "2022-10-04".

Definition old_catalog : list Game :=
  [sample_game 1 "One"; sample_game 2 "Two"].

Definition new_catalog : list Game :=
  [sample_game 3 "Three"; sample_game 4 "Four"; sample_game 5 "Five"].

Definition seven_games : list Game :=
  map (fun n => sample_game n "Game") [1; 2; 3; 4; 5; 6; 7].

Definition unlocked (gs : list Game) : GameStore :=
  mkGameStore gs (mkRWMutex false 0).

Definition sample_world (gs : list Game) : World counter_source :=
  mkWorld counter_source (unlocked gs) 0 [].

(** A connection on which nothing was sent yet. *)
Definition fresh_ctx (flusher : bool) : GinContext :=
  mkGinContext ∅ flusher [].

(** Three ticks of a session, the catalog replaced after the first. *)
Definition sample_events : list SysEvent :=
  [Sel TickerC; Refresh (Decoded new_catalog); Sel TickerC;
   Refresh (GetFailed "timeout"); Sel TickerC].

(** Five [GetRandom] calls, a [SetGames] of three games and a [Count]. *)
Definition sample_threads : list Thread :=
  replicate 5 GetRandom_RLock ++ [SetGames_Lock new_catalog; Count_RLock].

(** Two readers enter and the writer has to wait for them; a third reader
    slips in before the writer gets the lock; the last two readers and
    [Count] run after the write. *)
Definition sample_sched : list nat :=
  ([0; 1; 5; 0; 1; 5; 0; 1; 0; 1; 2; 0; 1; 5; 2; 2; 2; 2; 5; 5; 5] ++
   concat (replicate 5 [3; 4; 6]))%nat.

(** ** The lock with a waiting writer

    [sync.RWMutex] lets a writer go first.  A [Lock] that finds readers
    inside announces itself and waits for them to leave; from then on, and
    until that writer has unlocked, every [RLock] and every other [Lock]
    waits.  [waiting] is the thread whose [Lock] has announced itself. *)

Section WaitingWriter.

Context (R : RandSource).

Record StateW : Type := mkStateW {
  base : State R;
  waiting : option nat
}.

(** A turn of thread [k] under this rule. *)
Definition step_wp (k : nat) (sw : StateW) : StateW :=
  let st := base sw in
  match threads R st !! k with
  | None => sw
  | Some t =>
      match t, waiting sw with
      | SetGames_Lock _, None =>
          match thread_step R (shared R st) (source R st) t with
          | Some _ => mkStateW (step R k st) None
          | None =>
              if writer (mu (shared R st)) then sw
              else mkStateW st (Some k)
          end
      | SetGames_Lock _, Some j =>
          if decide (j = k) then
            match thread_step R (shared R st) (source R st) t with
            | Some _ => mkStateW (step R k st) None
            | None => sw
            end
          else sw
      | GetRandom_RLock, Some _ => sw
      | Count_RLock, Some _ => sw
      | _, _ => mkStateW (step R k st) (waiting sw)
      end
  end.

Fixpoint exec_wp (sched : list nat) (sw : StateW) : StateW :=
  match sched with
  | [] => sw
  | k :: sched' => exec_wp sched' (step_wp k sw)
  end.

(** The start: [old] installed, the lock free, no writer waiting. *)
Definition start_wp (old : list Game) (r : rng R) (ts : list Thread) : StateW :=
  mkStateW (mkState R (unlocked old) r ts) None.

(** The writer that waits is a thread inside [Lock], and no writer holds
    the lock while one waits. *)
Definition waiting_ok (sw : StateW) : Prop :=
  forall j, waiting sw = Some j ->
    (exists gs, threads R (base sw) !! j = Some (SetGames_Lock gs))
    /\ writer (mu (shared R (base sw))) = false.

End WaitingWriter.

(** * Properties *)

(** ** Slices and the random source *)

Lemma len_nil_iff {A : Type} (l : list A) : len l = 0 <-> l = [].
Proof.
  unfold len. destruct l as [|a l]; simpl; split; intros H; try done; lia.
Qed.

Lemma len_pos {A : Type} (l : list A) : l <> [] -> 0 < len l.
Proof.
  intros Hl. destruct l as [|a l]; [done|]. unfold len. simpl. lia.
Qed.

Lemma index_in_range {A : Type} (l : list A) (i : Z) :
  0 <= i < len l -> exists a, index l i = Ok a /\ l !! Z.to_nat i = Some a.
Proof.
  intros [Hlo Hhi]. unfold index, len in *.
  destruct (decide (0 <= i)) as [_|Hn]; [|lia].
  destruct (lookup_lt_is_Some_2 l (Z.to_nat i)) as [a Ha]; [lia|].
  exists a. by rewrite Ha.
Qed.

Lemma index_nil {A : Type} (i : Z) :
  index (@nil A) i = Panic "index out of range".
Proof.
  unfold index. destruct (decide (0 <= i)); [|done].
  by rewrite lookup_nil.
Qed.

Lemma Intn_pos (R : RandSource) (r : rng R) (n : Z) :
  0 < n -> exists i r', Intn R r n = Ok (i, r') /\ 0 <= i < n.
Proof.
  intros Hn. unfold Intn. destruct (decide (n <= 0)); [lia|].
  pose proof (draw_range R r n Hn) as Hr.
  destruct (draw R r n) as [i r']. by exists i, r'.
Qed.

(** ** [GetRandom] *)

Lemma GetRandom_empty (R : RandSource) (s : GameStore) (r : rng R) :
  games s = [] -> GetRandom R s r = Ok ((Game_zero, false), r).
Proof.
  intros Hs. unfold GetRandom. rewrite Hs. by destruct (decide (len [] = 0)).
Qed.

Lemma GetRandom_nonempty (R : RandSource) (s : GameStore) (r : rng R) :
  games s <> [] ->
  exists g r', GetRandom R s r = Ok ((g, true), r') /\ g ∈ games s.
Proof.
  intros Hs. unfold GetRandom.
  destruct (decide (len (games s) = 0)) as [H0|_].
  { by apply len_nil_iff in H0. }
  destruct (Intn_pos R r (len (games s)) (len_pos _ Hs)) as (i & r' & -> & Hi).
  simpl. destruct (index_in_range (games s) i Hi) as (g & -> & Hg).
  exists g, r'. split; [done|]. by eapply list_elem_of_lookup_2.
Qed.

(** C1: with at least one game installed, [GetRandom] does not panic,
    reports [true], and returns a game of the installed slice; its [ID] is
    one of the installed [ID]s. *)
Theorem GetRandom_found (R : RandSource) (s : GameStore) (gs : list Game)
    (r : rng R) :
  (1 <= length gs)%nat ->
  exists g r', GetRandom R (SetGames s gs) r = Ok ((g, true), r')
               /\ g ∈ games (SetGames s gs)
               /\ ID g ∈ map ID gs.
Proof.
  intros Hn.
  destruct (GetRandom_nonempty R (SetGames s gs) r) as (g & r' & Hg & Hin).
  { simpl. intros ->. simpl in Hn. lia. }
  exists g, r'. split_and!; [done..|].
  simpl in Hin. apply list_elem_of_fmap. by exists g.
Qed.

(** C2: on an empty catalog [GetRandom] returns [Game{}] and [false]; it
    draws no number, and it cannot have indexed the slice, where every
    index panics. *)
Theorem GetRandom_not_found (R : RandSource) (s : GameStore) (r : rng R) :
  len (games s) = 0 ->
  GetRandom R s r = Ok ((Game_zero, false), r)
  /\ forall i, index (games s) i = Panic "index out of range".
Proof.
  intros H0. apply len_nil_iff in H0. split.
  - by apply GetRandom_empty.
  - intros i. rewrite H0. apply index_nil.
Qed.

(** ** [SetGames], [Count] and [statsHandler] *)

Lemma Count_SetGames (s : GameStore) (gs : list Game) :
  Count (SetGames s gs) = len gs.
Proof. reflexivity. Qed.

(** C4: [SetGames] installs the given list as the whole catalog, whatever
    was there; [Count] is then its length, and [statsHandler] answers 200
    with the object of [total_games], that count, and [status], online. *)
Theorem SetGames_replaces (R : RandSource) (s : GameStore) (gs : list Game)
    (c : GinContext) (r : rng R) (l : list LogEntry) :
  games (SetGames s gs) = gs
  /\ Count (SetGames s gs) = Z.of_nat (length gs)
  /\ exists obj : gmap string JSON,
       wire (statsHandler R c (mkWorld R (SetGames s gs) r l))
         = wire c ++ [RespondJSON 200 obj]
       /\ obj !! "total_games" = Some (JInt (Count (SetGames s gs)))
       /\ obj !! "status" = Some (JStr "online")
       /\ dom obj = {["total_games"; "status"]}.
Proof.
  split_and!; [done..|].
  eexists. split; [reflexivity|]. split_and!.
  - by rewrite lookup_insert_eq.
  - rewrite lookup_insert_ne; [|done]. by rewrite lookup_insert_eq.
  - rewrite !dom_insert_L. set_solver.
Qed.

(** ** [fetchGames] and the refresh loop *)

Lemma fetchGames_error (R : RandSource) (f : Fetch) (w : World R) (err : string) :
  fetch_error f = Some err -> fetchGames R f w = (w, Some err).
Proof. destruct f; simpl; intros H; by simplify_eq. Qed.

(** C3: a fetch that fails, at [client.Get] or at [Decode], returns its
    error and leaves the whole process state alone; [main] then only logs,
    at startup and in the refresh loop alike, the store holds what it held,
    and the loop goes on to its next fetch. *)
Theorem fetch_failure_keeps_catalog (R : RandSource) (f : Fetch) (w : World R)
    (err : string) :
  fetch_error f = Some err ->
  fetchGames R f w = (w, Some err)
  /\ store R (main_startup R f w) = store R w
  /\ store R (main_refresh R f w) = store R w
  /\ forall fs, refresh_loop R (f :: fs) w
                = refresh_loop R fs (logPrintf R (LogRefreshFailed err) w).
Proof.
  intros Hf. pose proof (fetchGames_error R f w err Hf) as He.
  split_and!.
  - done.
  - unfold main_startup. by rewrite He.
  - unfold main_refresh. by rewrite He.
  - intros fs. simpl. unfold main_refresh. by rewrite He.
Qed.

(** C10: [SetGames] takes the empty list like any other: a fetch that
    decodes to no record empties the catalog, after which [Count] is 0 and
    [GetRandom] reports [false]; a fetch that fails keeps the catalog. *)
Theorem empty_fetch_clears_catalog (R : RandSource) (w : World R) (r : rng R) :
  let w' := (fetchGames R (Decoded []) w).1 in
  (fetchGames R (Decoded []) w).2 = None
  /\ games (store R w') = []
  /\ Count (store R w') = 0
  /\ GetRandom R (store R w') r = Ok ((Game_zero, false), r)
  /\ forall err, store R (fetchGames R (GetFailed err) w).1 = store R w
                 /\ store R (fetchGames R (DecodeFailed err) w).1 = store R w.
Proof.
  simpl. split_and!; try done.
Qed.

(** ** The stream session *)

Section Stream.

Context (R : RandSource) (encodeString : string -> string).

Lemma messages_send (c : GinContext) (outs : list Out) :
  messages (send outs c) = messages c ++ messages (mkGinContext ∅ false outs).
Proof. unfold messages. simpl. by rewrite omap_app. Qed.

Lemma messages_HeaderSet (k v : string) (c : GinContext) :
  messages (HeaderSet k v c) = messages c.
Proof. reflexivity. Qed.

Lemma sendGame_empty (c : GinContext) (w : World R) :
  games (store R w) = [] ->
  sendGame R encodeString c w = Ok (send [Fprintf noGamesEvent; Flush] c, w).
Proof.
  intros Hs. unfold sendGame. rewrite (GetRandom_empty R _ _ Hs). simpl.
  by destruct w.
Qed.

Lemma sendGame_nonempty (c : GinContext) (w : World R) :
  games (store R w) <> [] ->
  exists g r',
    GetRandom R (store R w) (rand R w) = Ok ((g, true), r')
    /\ g ∈ games (store R w)
    /\ sendGame R encodeString c w
       = Ok (send [Fprintf ("data: " +:+ Marshal encodeString g +:+ nl +:+ nl);
                   Flush] c,
             mkWorld R (store R w) r' (logs R w)).
Proof.
  intros Hs.
  destruct (GetRandom_nonempty R _ (rand R w) Hs) as (g & r' & Hg & Hin).
  exists g, r'. split_and!; [done..|]. unfold sendGame. by rewrite Hg.
Qed.

(** [sendGame] never panics: it sends one message, flushes, and leaves
    the store and the log alone. *)
Lemma sendGame_one_message (c : GinContext) (w : World R) :
  exists m r',
    sendGame R encodeString c w
    = Ok (send [Fprintf m; Flush] c, mkWorld R (store R w) r' (logs R w)).
Proof.
  destruct (decide (games (store R w) = [])) as [He|Hne].
  - exists noGamesEvent, (rand R w). rewrite (sendGame_empty c w He).
    by destruct w.
  - destruct (sendGame_nonempty c w Hne) as (g & r' & _ & _ & Hs).
    by eexists _, r'.
Qed.

Lemma noGamesEvent_literal :
  noGamesEvent
  = "event: error"
    +:+ String "010"%char
          ("data: {"
           +:+ String "034"%char
                 ("message"
                  +:+ String "034"%char
                        (":"
                         +:+ String "034"%char
                               ("No games available"
                                +:+ String "034"%char
                                      ("}"
                                       +:+ String "010"%char
                                             (String "010"%char
                                                     EmptyString)))))).
Proof. reflexivity. Qed.

(** C6: with an empty catalog an emission step sends the error event, the
    text [event: error], a newline, [data: ] with the object of [message]
    and [No games available], and two newlines (a quote is the character
    034, a newline the character 010), and nothing else; the session stays
    in its loop, at its first message as at every tick. *)
Theorem empty_catalog_error_event (c : GinContext) (s : Session) (w : World R) :
  games (store R w) = [] ->
  exists msg,
    msg = "event: error"
          +:+ String "010"%char
                ("data: {"
                 +:+ String "034"%char
                       ("message"
                        +:+ String "034"%char
                              (":"
                               +:+ String "034"%char
                                     ("No games available"
                                      +:+ String "034"%char
                                            ("}"
                                             +:+ String "010"%char
                                                   (String "010"%char
                                                           EmptyString))))))
    /\ sendGame R encodeString c w = Ok (send [Fprintf msg; Flush] c, w)
    /\ (isFlusher c = true ->
        exists s1, streamHandler_enter R encodeString c w = Ok (s1, w)
                   /\ returned s1 = false
                   /\ messages (ctx s1) = messages c ++ [msg])
    /\ (returned s = false ->
        exists s2, streamHandler_select R encodeString TickerC s w = Ok (s2, w)
                   /\ returned s2 = false
                   /\ messages (ctx s2) = messages (ctx s) ++ [msg]).
Proof.
  intros He. eexists. split; [reflexivity|]. rewrite <- noGamesEvent_literal.
  split_and!.
  - by apply sendGame_empty.
  - intros Hf. unfold streamHandler_enter. simpl. rewrite Hf. simpl.
    rewrite sendGame_empty; [|done]. simpl.
    eexists. split_and!; [reflexivity|done|].
    simpl. by rewrite messages_send.
  - intros Hr. unfold streamHandler_select. rewrite Hr.
    rewrite sendGame_empty; [|done]. simpl.
    eexists. split_and!; [reflexivity|done|].
    simpl. by rewrite messages_send.
Qed.

Lemma run_returned (es : list SysEvent) (s : Session) (w : World R) :
  returned s = true -> exists w', run R encodeString es (s, w) = Ok (s, w').
Proof.
  intros Hr. revert w. induction es as [|e es IH]; intros w.
  - by exists w.
  - simpl. destruct e as [ev|f]; simpl.
    + unfold streamHandler_select. rewrite Hr. simpl. apply IH.
    + apply IH.
Qed.


(** [json.Marshal] of a [Game], written out. *)
Lemma Marshal_unfold (g : Game) :
  Marshal encodeString g
  = "{" +:+ String.concat ","
      [ dq +:+ "id" +:+ dq +:+ ":" +:+ pretty (ID g);
        dq +:+ "title" +:+ dq +:+ ":" +:+ encodeString (Title g);
        dq +:+ "thumbnail" +:+ dq +:+ ":" +:+ encodeString (Thumbnail g);
        dq +:+ "short_description" +:+ dq +:+ ":"
           +:+ encodeString (ShortDescription g);
        dq +:+ "game_url" +:+ dq +:+ ":" +:+ encodeString (GameURL g);
        dq +:+ "genre" +:+ dq +:+ ":" +:+ encodeString (Genre g);
        dq +:+ "platform" +:+ dq +:+ ":" +:+ encodeString (Platform g);
        dq +:+ "publisher" +:+ dq +:+ ":" +:+ encodeString (Publisher g);
        dq +:+ "developer" +:+ dq +:+ ":" +:+ encodeString (Developer g);
        dq +:+ "release_date" +:+ dq +:+ ":" +:+ encodeString (ReleaseDate g) ]
    +:+ "}".
Proof. reflexivity. Qed.

Lemma string_app_assoc (a b c : string) : (a +:+ b) +:+ c = a +:+ b +:+ c.
Proof.
  induction a as [|x a IH]; [done|].
  change (String x ((a +:+ b) +:+ c) = String x (a +:+ b +:+ c)).
  by rewrite IH.
Qed.

Lemma data_message_literal (g : Game) :
  let q := String "034"%char EmptyString in
  let n := String "010"%char EmptyString in
  "data: " +:+ Marshal encodeString g +:+ nl +:+ nl
  = "data: {"
    +:+ q +:+ "id" +:+ q +:+ ":" +:+ pretty (ID g) +:+ ","
    +:+ q +:+ "title" +:+ q +:+ ":" +:+ encodeString (Title g) +:+ ","
    +:+ q +:+ "thumbnail" +:+ q +:+ ":" +:+ encodeString (Thumbnail g) +:+ ","
    +:+ q +:+ "short_description" +:+ q +:+ ":" +:+ encodeString (ShortDescription g) +:+ ","
    +:+ q +:+ "game_url" +:+ q +:+ ":" +:+ encodeString (GameURL g) +:+ ","
    +:+ q +:+ "genre" +:+ q +:+ ":" +:+ encodeString (Genre g) +:+ ","
    +:+ q +:+ "platform" +:+ q +:+ ":" +:+ encodeString (Platform g) +:+ ","
    +:+ q +:+ "publisher" +:+ q +:+ ":" +:+ encodeString (Publisher g) +:+ ","
    +:+ q +:+ "developer" +:+ q +:+ ":" +:+ encodeString (Developer g) +:+ ","
    +:+ q +:+ "release_date" +:+ q +:+ ":" +:+ encodeString (ReleaseDate g)
    +:+ "}" +:+ n +:+ n.
Proof.
  intros q n. unfold Marshal, encodeObject, Game_fields, encodeField,
    encodeValue, q, n, nl, dq.
  cbn [map String.concat fst snd].
  rewrite !string_app_assoc. reflexivity.
Qed.

(** C8: with a game to send, the message is [data: ], the JSON of the
    sampled game and two newlines (a quote is the character 034, a newline
    the character 010).  The JSON is one object of ten members in this
    order: [id] with the decimal number of the [ID], then [title],
    [thumbnail], [short_description], [game_url], [genre], [platform],
    [publisher], [developer] and [release_date], each with the string of
    its field as [encoding/json] quotes it; there is no other member. *)
Theorem stream_message_framing (c : GinContext) (w : World R) :
  (1 <= length (games (store R w)))%nat ->
  let q := String "034"%char EmptyString in
  let n := String "010"%char EmptyString in
  exists g r',
    GetRandom R (store R w) (rand R w) = Ok ((g, true), r')
    /\ g ∈ games (store R w)
    /\ sendGame R encodeString c w
       = Ok (send [Fprintf
                     ("data: {"
                      +:+ q +:+ "id" +:+ q +:+ ":" +:+ pretty (ID g) +:+ ","
                      +:+ q +:+ "title" +:+ q +:+ ":" +:+ encodeString (Title g) +:+ ","
                      +:+ q +:+ "thumbnail" +:+ q +:+ ":" +:+ encodeString (Thumbnail g) +:+ ","
                      +:+ q +:+ "short_description" +:+ q +:+ ":" +:+ encodeString (ShortDescription g) +:+ ","
                      +:+ q +:+ "game_url" +:+ q +:+ ":" +:+ encodeString (GameURL g) +:+ ","
                      +:+ q +:+ "genre" +:+ q +:+ ":" +:+ encodeString (Genre g) +:+ ","
                      +:+ q +:+ "platform" +:+ q +:+ ":" +:+ encodeString (Platform g) +:+ ","
                      +:+ q +:+ "publisher" +:+ q +:+ ":" +:+ encodeString (Publisher g) +:+ ","
                      +:+ q +:+ "developer" +:+ q +:+ ":" +:+ encodeString (Developer g) +:+ ","
                      +:+ q +:+ "release_date" +:+ q +:+ ":" +:+ encodeString (ReleaseDate g)
                      +:+ "}" +:+ n +:+ n);
                   Flush] c,
             mkWorld R (store R w) r' (logs R w))
    /\ (Game_fields g).*1
       = [ "id"; "title"; "thumbnail"; "short_description"; "game_url";
           "genre"; "platform"; "publisher"; "developer"; "release_date" ]
    /\ (Game_fields g).*2
       = [ JInt (ID g); JStr (Title g); JStr (Thumbnail g);
           JStr (ShortDescription g); JStr (GameURL g); JStr (Genre g);
           JStr (Platform g); JStr (Publisher g); JStr (Developer g);
           JStr (ReleaseDate g) ].
Proof.
  intros Hlen q n.
  assert (games (store R w) <> []) as Hne.
  { intros He. rewrite He in Hlen. simpl in Hlen. lia. }
  destruct (sendGame_nonempty c w Hne) as (g & r' & Hg & Hin & Hs).
  exists g, r'. split_and!; [done|done| |done|done].
  rewrite Hs. pose proof (data_message_literal g) as Hlit.
  cbv zeta in Hlit. by rewrite Hlit.
Qed.

Lemma existsb_false_Forall (es : list SysEvent) :
  existsb is_done es = false -> Forall (fun e => is_done e = false) es.
Proof.
  induction es as [|e es IH]; simpl; [constructor|].
  intros [He Hes]%orb_false_elim. constructor; [done|by apply IH].
Qed.

Lemma streamHandler_select_tick (s : Session) (w : World R) :
  returned s = false ->
  exists s' w',
    streamHandler_select R encodeString TickerC s w = Ok (s', w')
    /\ returned s' = false
    /\ ticker s' = ticker s
    /\ length (messages (ctx s')) = S (length (messages (ctx s))).
Proof.
  intros Hr. unfold streamHandler_select. rewrite Hr.
  destruct (sendGame_one_message (ctx s) w) as (m & r' & ->). simpl.
  eexists _, _. split_and!; [reflexivity|done|done|].
  simpl. rewrite messages_send, length_app. simpl. lia.
Qed.

Lemma run_no_done (es : list SysEvent) (s : Session) (w : World R) :
  returned s = false ->
  Forall (fun e => is_done e = false) es ->
  exists s' w',
    run R encodeString es (s, w) = Ok (s', w')
    /\ returned s' = false
    /\ ticker s' = ticker s
    /\ length (messages (ctx s')) = (length (messages (ctx s)) + ticks es)%nat.
Proof.
  intros Hr Hes. revert s w Hr.
  induction Hes as [|e es He _ IH]; intros s w Hr.
  - exists s, w. split_and!; [done..|]. unfold ticks. simpl. lia.
  - destruct e as [[]|f]; simpl in He; [done| |].
    + destruct (streamHandler_select_tick s w Hr) as (s1 & w1 & H1 & Hr1 & Ht1 & Hm1).
      destruct (IH s1 w1 Hr1) as (s2 & w2 & H2 & Hr2 & Ht2 & Hm2).
      exists s2, w2. simpl. rewrite H1. simpl.
      split_and!; [done|done|congruence|].
      rewrite Hm2, Hm1. unfold ticks. simpl. lia.
    + destruct (IH s (main_refresh R f w) Hr) as (s2 & w2 & H2 & Hr2 & Ht2 & Hm2).
      exists s2, w2. simpl. split_and!; [done..|].
      rewrite Hm2. unfold ticks. by simpl.
Qed.

(** C5: a handler whose writer can flush sends one message on entry,
    before its ticker exists; from then on, while its context is not done,
    it stays in its loop and has sent one more message for each firing of
    the ticker, however many there are and whatever the refresh loop does
    in between. *)
Theorem stream_one_message_per_tick (c : GinContext) (w : World R)
    (es : list SysEvent) :
  isFlusher c = true ->
  existsb is_done es = false ->
  exists s1 w1 s2 w2,
    streamHandler_enter R encodeString c w = Ok (s1, w1)
    /\ returned s1 = false
    /\ ticker s1 = Some true
    /\ length (messages (ctx s1)) = S (length (messages c))
    /\ run R encodeString es (s1, w1) = Ok (s2, w2)
    /\ returned s2 = false
    /\ ticker s2 = Some true
    /\ length (messages (ctx s2)) = (length (messages (ctx s1)) + ticks es)%nat.
Proof.
  intros Hf Hes%existsb_false_Forall.
  unfold streamHandler_enter. simpl. rewrite Hf. simpl.
  match goal with
  | |- context [sendGame R encodeString ?c0 w] =>
      destruct (sendGame_one_message c0 w) as (m & r' & ->)
  end.
  simpl.
  match goal with
  | |- context [Ok (?s0, ?w0)] =>
      destruct (run_no_done es s0 w0 eq_refl Hes) as (s2 & w2 & H2 & Hr2 & Ht2 & Hm2)
  end.
  eexists _, _, s2, w2. split_and!; [reflexivity|done|done| |done|done|done|done].
  simpl. rewrite messages_send, length_app, !messages_HeaderSet. simpl. lia.
Qed.

End Stream.

(** ** The lock makes the methods atomic *)

Lemma count_insert (p : Thread -> bool) (ts : list Thread) (k : nat)
    (t t' : Thread) :
  ts !! k = Some t ->
  (count p (<[k := t']> ts) + (if p t then 1 else 0)
   = count p ts + (if p t' then 1 else 0))%nat.
Proof.
  revert k. induction ts as [|a ts IH]; intros k Hk; [done|].
  destruct k as [|k]; simpl in *.
  - simplify_eq. lia.
  - specialize (IH k Hk). lia.
Qed.

Lemma count_lookup_pos (p : Thread -> bool) (ts : list Thread) (k : nat)
    (t : Thread) :
  ts !! k = Some t -> p t = true -> (0 < count p ts)%nat.
Proof.
  revert k. induction ts as [|a ts IH]; intros k Hk Hp; [done|].
  destruct k as [|k]; simpl in *.
  - simplify_eq. rewrite Hp. lia.
  - specialize (IH k Hk Hp). lia.
Qed.

Lemma count_zero_Forall (p : Thread -> bool) (ts : list Thread) :
  count p ts = 0%nat -> Forall (fun t => p t = false) ts.
Proof.
  induction ts as [|a ts IH]; intros H0; [constructor|].
  simpl in H0. destruct (p a) eqn:Hp; [lia|].
  constructor; [done|]. apply IH. lia.
Qed.

(** Outside [RLock] .. [RUnlock] a thread holds nothing that depends on
    the catalog installed now. *)
Lemma consistent_not_reading (C : list (list Game)) (gs gs' : list Game)
    (t : Thread) :
  reading t = false -> consistent C gs t -> consistent C gs' t.
Proof. destruct t as [| | | | | | | | |[g []]| | | | |]; done. Qed.

Lemma consistent_done (C : list (list Game)) (gs : list Game)
    (res : Game * bool) :
  gs ∈ C -> consistent C gs (GetRandom_RUnlock res) ->
  consistent C gs (GetRandom_done res).
Proof.
  intros HC. destruct res as [g []]; simpl.
  - intros Hg. by exists gs.
  - intros [-> ->]. done.
Qed.

Section Atomicity.

Context (R : RandSource) (C : list (list Game)).

(** A writer at [s.games = games] holds the lock alone. *)
Lemma writing_excludes_readers (m : RWMutex) (ts : list Thread) (k : nat)
    (t : Thread) :
  lock_counts m ts -> ts !! k = Some t -> writing t = true ->
  writer m = true /\ Forall (fun t' => reading t' = false) ts.
Proof.
  intros (Hr & Hw & Hex) Hk Ht.
  pose proof (count_lookup_pos writing ts k t Hk Ht) as Hpos.
  destruct (writer m) eqn:Hwm; [|lia].
  split; [done|]. apply count_zero_Forall. rewrite <- Hr. by apply Hex.
Qed.

(** A reader inside its section is counted by the lock. *)
Lemma reading_holds_lock (m : RWMutex) (ts : list Thread) (k : nat)
    (t : Thread) :
  lock_counts m ts -> ts !! k = Some t -> reading t = true ->
  exists n, readers m = S n /\ writer m = false.
Proof.
  intros (Hr & Hw & Hex) Hk Ht.
  pose proof (count_lookup_pos reading ts k t Hk Ht) as Hpos.
  destruct (readers m) as [|n] eqn:Hn; [lia|].
  exists n. split; [done|]. destruct (writer m); [|done].
  specialize (Hex eq_refl). done.
Qed.

Lemma lock_counts_insert (m m' : RWMutex) (ts : list Thread) (k : nat)
    (t t' : Thread) :
  lock_counts m ts -> ts !! k = Some t ->
  (readers m' + (if reading t then 1 else 0)
   = readers m + (if reading t' then 1 else 0))%nat ->
  ((if writer m' then 1 else 0) + (if writing t then 1 else 0)
   = (if writer m then 1 else 0) + (if writing t' then 1 else 0))%nat ->
  (writer m' = true -> readers m' = 0%nat) ->
  lock_counts m' (<[k := t']> ts).
Proof.
  intros (Hr & Hw & Hex) Hk Hr' Hw' Hex'.
  pose proof (count_insert reading ts k t t' Hk).
  pose proof (count_insert writing ts k t t' Hk).
  split_and!; [lia|lia|done].
Qed.

Lemma step_inv (k : nat) (st : State R) : inv R C st -> inv R C (step R k st).
Proof.
  destruct st as [[gs m] r ts]. unfold inv, step. simpl.
  intros (HL & HC & HF).
  destruct (ts !! k) as [t|] eqn:Hk; [|done].
  pose proof (proj1 (Forall_lookup _ _) HF k t Hk) as Ht.
  destruct t; simpl in *.
  - (* SetGames_Lock *)
    unfold Lock. destruct m as [[] [|n]]; simpl; try done.
    split_and!; [|done|by apply Forall_insert].
    eapply lock_counts_insert; [done..|simpl; lia|simpl; lia|done].
  - (* SetGames_assign *)
    destruct (writing_excludes_readers m ts k _ HL Hk eq_refl) as [Hw Hnr].
    split_and!; [|done|].
    + eapply lock_counts_insert; [done..|simpl; lia|simpl; lia|by destruct HL as (_&_&?)].
    + apply Forall_insert; [|done].
      apply Forall_forall. intros t' Hin.
      eapply consistent_not_reading.
      * by apply (proj1 (Forall_forall _ _) Hnr).
      * by apply (proj1 (Forall_forall _ _) HF).
  - (* SetGames_Unlock *)
    destruct (writing_excludes_readers m ts k _ HL Hk eq_refl) as [Hw Hnr].
    unfold Unlock. rewrite Hw. simpl.
    split_and!; [|done|by apply Forall_insert].
    eapply lock_counts_insert; [done..|simpl; lia|simpl; rewrite Hw; lia|done].
  - done.
  - (* GetRandom_RLock *)
    unfold RLock. destruct (writer m) eqn:Hw; simpl; [done|].
    split_and!; [|done|by apply Forall_insert].
    eapply lock_counts_insert; [done..|simpl; lia|simpl; rewrite Hw; lia|done].
  - (* GetRandom_len *)
    destruct (decide (len gs = 0)) as [H0|H0]; simpl.
    + apply len_nil_iff in H0.
      split_and!; [|done|by apply Forall_insert].
      eapply lock_counts_insert; [done..|simpl; lia|simpl; lia|by destruct HL as (_&_&?)].
    + split_and!; [|done|].
      * eapply lock_counts_insert; [done..|simpl; lia|simpl; lia|by destruct HL as (_&_&?)].
      * apply Forall_insert; [done|]. simpl. intros ->. by apply H0.
  - (* GetRandom_Intn *)
    destruct (Intn_pos R r (len gs) (len_pos _ Ht)) as (i & r' & -> & Hi).
    simpl. split_and!; [|done|by apply Forall_insert].
    eapply lock_counts_insert; [done..|simpl; lia|simpl; lia|by destruct HL as (_&_&?)].
  - (* GetRandom_index *)
    destruct (index_in_range gs i Ht) as (g & -> & Hg). simpl.
    split_and!; [|done|].
    + eapply lock_counts_insert; [done..|simpl; lia|simpl; lia|by destruct HL as (_&_&?)].
    + apply Forall_insert; [done|]. simpl. by eapply list_elem_of_lookup_2.
  - (* GetRandom_RUnlock *)
    destruct (reading_holds_lock m ts k _ HL Hk eq_refl) as (n & Hn & Hw).
    unfold RUnlock. rewrite Hn. simpl.
    split_and!; [|done|].
    + eapply lock_counts_insert; [done..|simpl; lia|simpl; lia|simpl; congruence].
    + apply Forall_insert; [done|]. by apply consistent_done.
  - done.
  - (* Count_RLock *)
    unfold RLock. destruct (writer m) eqn:Hw; simpl; [done|].
    split_and!; [|done|by apply Forall_insert].
    eapply lock_counts_insert; [done..|simpl; lia|simpl; rewrite Hw; lia|done].
  - (* Count_len *)
    split_and!; [|done|by apply Forall_insert].
    eapply lock_counts_insert; [done..|simpl; lia|simpl; lia|by destruct HL as (_&_&?)].
  - (* Count_RUnlock *)
    destruct (reading_holds_lock m ts k _ HL Hk eq_refl) as (n' & Hn & Hw).
    unfold RUnlock. rewrite Hn. simpl.
    split_and!; [|done|].
    + eapply lock_counts_insert; [done..|simpl; lia|simpl; lia|simpl; congruence].
    + apply Forall_insert; [done|]. simpl. by exists gs.
  - done.
  - done.
Qed.

Lemma exec_inv (sched : list nat) (st : State R) :
  inv R C st -> inv R C (exec R sched st).
Proof.
  revert st. induction sched as [|k sched IH]; intros st Hst; [done|].
  simpl. apply IH. by apply step_inv.
Qed.

Lemma count_initial (p : Thread -> bool) (ts : list Thread) :
  (forall t, initial t = true -> p t = false) ->
  forallb initial ts = true -> count p ts = 0%nat.
Proof.
  intros Hp. induction ts as [|t ts IH]; simpl; [done|].
  intros [Ht Hts]%andb_prop. rewrite (Hp t Ht). simpl. by apply IH.
Qed.

Lemma inv_init (old : list Game) (r : rng R) (ts : list Thread) :
  forallb initial ts = true ->
  inv R (catalogs old ts)
      (mkState R (mkGameStore old (mkRWMutex false 0)) r ts).
Proof.
  intros Hts. unfold inv. simpl. split_and!.
  - split_and!; simpl; [|by apply count_initial; [by intros []|]|done].
    symmetry. apply count_initial; [by intros []|done].
  - unfold catalogs. apply list_elem_of_here.
  - apply Forall_forall. intros t Hin.
    assert (initial t = true) as Hi.
    { apply Is_true_true.
      apply (proj1 (Forall_forall _ _) (proj1 (forallb_True _ _) (Is_true_true_2 _ Hts))).
      done. }
    destruct t; simpl in *; try done.
    unfold catalogs. apply list_elem_of_further, list_elem_of_omap.
    by eexists (SetGames_Lock gs).
Qed.

Lemma count_lookup_two (p : Thread -> bool) (ts : list Thread) (k j : nat)
    (t t' : Thread) :
  k <> j -> ts !! k = Some t -> ts !! j = Some t' ->
  p t = true -> p t' = true -> (2 <= count p ts)%nat.
Proof.
  revert k j. induction ts as [|a ts IH]; intros k j Hne Hk Hj Hp Hp'; [done|].
  destruct k as [|k], j as [|j]; simpl in *; try done.
  - simplify_eq. rewrite Hp.
    pose proof (count_lookup_pos p ts j t' Hj Hp'). lia.
  - simplify_eq. rewrite Hp'.
    pose proof (count_lookup_pos p ts k t Hk Hp). lia.
  - assert (k <> j) as Hne' by lia.
    specialize (IH k j Hne' Hk Hj Hp Hp'). lia.
Qed.

(** While a thread is between [RLock] and [RUnlock], no turn of any thread
    changes the catalog. *)
Lemma step_keeps_games (k j : nat) (t : Thread) (st : State R) :
  inv R C st -> threads R st !! k = Some t -> reading t = true ->
  games (shared R (step R j st)) = games (shared R st).
Proof.
  destruct st as [[gs m] r ts]. unfold inv, step. simpl.
  intros (HL & HC & HF) Hk Ht.
  destruct (ts !! j) as [tj|] eqn:Hj; [|done].
  destruct (thread_step R (mkGameStore gs m) r tj) as [[[s' r'] t']|] eqn:Hs;
    [|done].
  simpl. destruct tj; simpl in Hs;
    repeat match type of Hs with
           | context [Lock ?x] => destruct (Lock x); simpl in Hs
           | context [RLock ?x] => destruct (RLock x); simpl in Hs
           | context [Unlock ?x] => destruct (Unlock x); simpl in Hs
           | context [RUnlock ?x] => destruct (RUnlock x); simpl in Hs
           | context [decide ?x] => destruct (decide x); simpl in Hs
           | context [Intn ?a ?b ?c] => destruct (Intn a b c); simpl in Hs
           | context [index ?a ?b] => destruct (index a b); simpl in Hs
           end; simplify_eq; try done.
  destruct (writing_excludes_readers m ts j _ HL Hj eq_refl) as [_ Hnr].
  pose proof (proj1 (Forall_lookup _ _) Hnr k t Hk) as Hf. simpl in Hf.
  congruence.
Qed.

End Atomicity.

(** C9: take a store holding [old], with its lock free, and any number of
    calls of [SetGames], [GetRandom] and [Count] about to start, and run
    them under any schedule.  At every point of the run: no thread has
    panicked; the catalog installed is [old] or one of those the [SetGames]
    calls bring; the thread at [s.games = games] is alone between a lock
    and its unlock; while a reader is between [RLock] and [RUnlock] no turn
    changes the catalog, the index it is about to use is in range and the
    length it has read is that of the catalog; and what [GetRandom] and
    [Count] have returned comes from one of these catalogs. *)
Theorem SetGames_atomic (R : RandSource) (old : list Game) (r : rng R)
    (ts : list Thread) (sched : list nat) :
  forallb initial ts = true ->
  let st := exec R sched (mkState R (mkGameStore old (mkRWMutex false 0)) r ts) in
  let C := catalogs old ts in
  games (shared R st) ∈ C
  /\ (forall k msg, threads R st !! k <> Some (Panicked msg))
  /\ (forall k j new t, k <> j ->
        threads R st !! k = Some (SetGames_assign new) ->
        threads R st !! j = Some t ->
        reading t = false /\ writing t = false)
  /\ (forall k j t, threads R st !! k = Some t -> reading t = true ->
        games (shared R (step R j st)) = games (shared R st))
  /\ (forall k i, threads R st !! k = Some (GetRandom_index i) ->
        0 <= i < len (games (shared R st)))
  /\ (forall k n, threads R st !! k = Some (Count_RUnlock n) ->
        n = len (games (shared R st)))
  /\ (forall k g, threads R st !! k = Some (GetRandom_done (g, true)) ->
        exists cat, cat ∈ C /\ g ∈ cat)
  /\ (forall k g, threads R st !! k = Some (GetRandom_done (g, false)) ->
        g = Game_zero /\ [] ∈ C)
  /\ (forall k n, threads R st !! k = Some (Count_done n) ->
        exists cat, cat ∈ C /\ n = len cat).
Proof.
  intros Hts st C.
  assert (inv R C st) as Hinv.
  { apply exec_inv. by apply inv_init. }
  pose proof Hinv as (HL & HC & HF).
  pose proof (proj1 (Forall_lookup _ _) HF) as Hcons.
  split_and!.
  - done.
  - intros k msg Hk. exact (Hcons k _ Hk).
  - intros k j new t Hne Hk Hj.
    destruct (writing_excludes_readers _ _ k _ HL Hk eq_refl) as [Hw Hnr].
    split; [exact (proj1 (Forall_lookup _ _) Hnr j t Hj)|].
    destruct (writing t) eqn:Hwt; [|done].
    pose proof (count_lookup_two writing _ k j _ t Hne Hk Hj eq_refl Hwt).
    destruct HL as (_ & Hc & _). rewrite Hw in Hc. lia.
  - intros k j t Hk Ht. by eapply step_keeps_games.
  - intros k i Hk. exact (Hcons k _ Hk).
  - intros k n Hk. exact (Hcons k _ Hk).
  - intros k g Hk. exact (Hcons k _ Hk).
  - intros k g Hk. exact (Hcons k _ Hk).
  - intros k n Hk. exact (Hcons k _ Hk).
Qed.

(** ** A method run alone is the method of the first part *)

Lemma SetGames_alone (R : RandSource) (gs0 gs : list Game) (r : rng R) :
  exec R [0; 0; 0]%nat (mkState R (unlocked gs0) r [SetGames_Lock gs])
  = mkState R (SetGames (unlocked gs0) gs) r [SetGames_done].
Proof. reflexivity. Qed.

Lemma Count_alone (R : RandSource) (gs0 : list Game) (r : rng R) :
  exec R [0; 0; 0]%nat (mkState R (unlocked gs0) r [Count_RLock])
  = mkState R (unlocked gs0) r [Count_done (Count (unlocked gs0))].
Proof. reflexivity. Qed.

Lemma GetRandom_alone (R : RandSource) (gs0 : list Game) (r r' : rng R)
    (res : Game * bool) :
  GetRandom R (unlocked gs0) r = Ok (res, r') ->
  exec R [0; 0; 0; 0; 0]%nat (mkState R (unlocked gs0) r [GetRandom_RLock])
  = mkState R (unlocked gs0) r' [GetRandom_done res].
Proof.
  unfold GetRandom. simpl. unfold step at 5. simpl. unfold step at 4. simpl.
  destruct (decide (len gs0 = 0)) as [H0|H0]; simpl.
  - intros [= <- <-]. reflexivity.
  - unfold step at 3. simpl.
    destruct (Intn R r (len gs0)) as [[i r1]|msg]; simpl; [|done].
    unfold step at 2. simpl.
    destruct (index gs0 i) as [g|msg]; simpl; [|done].
    intros [= <- <-]. reflexivity.
Qed.

(** ** A thread inside the lock can always move *)

Lemma count_pos_lookup (p : Thread -> bool) (ts : list Thread) :
  (0 < count p ts)%nat -> exists k t, ts !! k = Some t /\ p t = true.
Proof.
  induction ts as [|a ts IH]; simpl; [lia|].
  destruct (p a) eqn:Hp.
  - intros _. by exists 0%nat, a.
  - intros Hc. destruct IH as (k & t & Hk & Ht); [lia|]. by exists (S k), t.
Qed.

Lemma thread_step_inside (R : RandSource) (s : GameStore) (r : rng R)
    (t : Thread) :
  reading t || writing t = true -> is_Some (thread_step R s r t).
Proof.
  destruct t; simpl; try done; intros _;
    repeat match goal with
           | |- context [Unlock ?x] => destruct (Unlock x)
           | |- context [RUnlock ?x] => destruct (RUnlock x)
           | |- context [decide ?x] => destruct (decide x)
           | |- context [Intn ?a ?b ?c] => destruct (Intn a b c)
           | |- context [index ?a ?b] => destruct (index a b)
           end; by eexists.
Qed.

(** ** The definitions on the sample data *)

Example sample_run_threads :
  threads _ (exec counter_source sample_sched
               (mkState counter_source (unlocked old_catalog) 0 sample_threads))
  = [ GetRandom_done (sample_game 1 "One", true);
      GetRandom_done (sample_game 2 "Two", true);
      GetRandom_done (sample_game 1 "One", true);
      GetRandom_done (sample_game 3 "Three", true);
      GetRandom_done (sample_game 4 "Four", true);
      SetGames_done;
      Count_done 3 ].
Proof. vm_compute. reflexivity. Qed.

Example sample_writer_waits :
  threads _ (exec counter_source [0; 1; 5; 0; 5]%nat
               (mkState counter_source (unlocked old_catalog) 0 sample_threads))
    !! 5%nat
  = Some (SetGames_Lock new_catalog).
Proof. vm_compute. reflexivity. Qed.

Example stats_after_seven :
  wire (statsHandler counter_source (fresh_ctx true)
          (mkWorld counter_source (SetGames store_init seven_games) 0 []))
  = [RespondJSON 200
       (<["total_games" := JInt 7]> (<["status" := JStr "online"]> ∅))].
Proof. reflexivity. Qed.

Example first_message_empty_catalog :
  (fun st => messages (ctx st.1))
    <$> match streamHandler_enter counter_source quote_plain (fresh_ctx true)
                (sample_world []) with
        | Ok st => Some st
        | Panic _ => None
        end
  = Some [noGamesEvent].
Proof. vm_compute. reflexivity. Qed.

(** The bytes of the error event, as the literal of the source has them. *)
Example noGamesEvent_bytes :
  map nat_of_ascii (list_ascii_of_string noGamesEvent)
  = [ 101; 118; 101; 110; 116; 58; 32; 101; 114; 114; 111; 114; 10; 100; 97;
      116; 97; 58; 32; 123; 34; 109; 101; 115; 115; 97; 103; 101; 34; 58;
      34; 78; 111; 32; 103; 97; 109; 101; 115; 32; 97; 118; 97; 105; 108;
      97; 98; 108; 101; 34; 125; 10; 10 ]%nat.
Proof. vm_compute. reflexivity. Qed.

(** ** The theorems at the sample data *)

Lemma GetRandom_found_witness :
  (1 <= length old_catalog)%nat
  /\ exists g r',
       GetRandom counter_source (SetGames store_init old_catalog) 0
       = Ok ((g, true), r')
       /\ g ∈ games (SetGames store_init old_catalog)
       /\ ID g ∈ map ID old_catalog.
Proof.
  split; [simpl; lia|].
  apply (GetRandom_found counter_source store_init old_catalog 0).
  simpl; lia.
Defined.

Lemma GetRandom_not_found_witness :
  len (games store_init) = 0
  /\ GetRandom counter_source store_init 7 = Ok ((Game_zero, false), 7)
  /\ forall i, index (games store_init) i = Panic "index out of range".
Proof.
  split; [reflexivity|].
  apply (GetRandom_not_found counter_source store_init 7). reflexivity.
Defined.

Lemma fetch_failure_keeps_catalog_witness :
  fetch_error (DecodeFailed "unexpected end of JSON input")
  = Some "unexpected end of JSON input"
  /\ store _ (main_refresh counter_source
                (DecodeFailed "unexpected end of JSON input")
                (sample_world old_catalog))
     = unlocked old_catalog.
Proof.
  split; [reflexivity|].
  exact (proj1 (proj2 (proj2
           (fetch_failure_keeps_catalog counter_source
              (DecodeFailed "unexpected end of JSON input")
              (sample_world old_catalog)
              "unexpected end of JSON input" eq_refl)))).
Defined.

Lemma stream_one_message_per_tick_witness :
  isFlusher (fresh_ctx true) = true
  /\ existsb is_done sample_events = false
  /\ exists s1 w1 s2 w2,
       streamHandler_enter counter_source quote_plain (fresh_ctx true)
         (sample_world old_catalog) = Ok (s1, w1)
       /\ returned s1 = false
       /\ ticker s1 = Some true
       /\ length (messages (ctx s1)) = S (length (messages (fresh_ctx true)))
       /\ run counter_source quote_plain sample_events (s1, w1) = Ok (s2, w2)
       /\ returned s2 = false
       /\ ticker s2 = Some true
       /\ length (messages (ctx s2))
          = (length (messages (ctx s1)) + ticks sample_events)%nat.
Proof.
  split; [reflexivity|]. split; [reflexivity|].
  apply (stream_one_message_per_tick counter_source quote_plain
           (fresh_ctx true) (sample_world old_catalog) sample_events);
    reflexivity.
Defined.

Lemma empty_catalog_error_event_witness :
  games (store _ (sample_world [])) = []
  /\ exists msg,
       msg = "event: error"
             +:+ String "010"%char
                   ("data: {"
                    +:+ String "034"%char
                          ("message"
                           +:+ String "034"%char
                                 (":"
                                  +:+ String "034"%char
                                        ("No games available"
                                         +:+ String "034"%char
                                               ("}"
                                                +:+ String "010"%char
                                                      (String "010"%char
                                                              EmptyString))))))
       /\ sendGame counter_source quote_plain (fresh_ctx true) (sample_world [])
          = Ok (send [Fprintf msg; Flush] (fresh_ctx true), sample_world []).
Proof.
  split; [reflexivity|].
  destruct (empty_catalog_error_event counter_source quote_plain
              (fresh_ctx true)
              (mkSession (fresh_ctx true) (Some true) false)
              (sample_world []) eq_refl) as (msg & Hmsg & Hsend & _).
  exists msg. split; [exact Hmsg|exact Hsend].
Defined.


Lemma stream_message_framing_witness :
  (1 <= length (games (store _ (sample_world old_catalog))))%nat
  /\ let q := String "034"%char EmptyString in
     let n := String "010"%char EmptyString in
     exists g r',
       GetRandom counter_source (store _ (sample_world old_catalog))
         (rand _ (sample_world old_catalog)) = Ok ((g, true), r')
       /\ sendGame counter_source quote_plain (fresh_ctx true)
            (sample_world old_catalog)
          = Ok (send [Fprintf
                        ("data: {"
                         +:+ q +:+ "id" +:+ q +:+ ":" +:+ pretty (ID g) +:+ ","
                         +:+ q +:+ "title" +:+ q +:+ ":" +:+ quote_plain (Title g) +:+ ","
                         +:+ q +:+ "thumbnail" +:+ q +:+ ":" +:+ quote_plain (Thumbnail g) +:+ ","
                         +:+ q +:+ "short_description" +:+ q +:+ ":" +:+ quote_plain (ShortDescription g) +:+ ","
                         +:+ q +:+ "game_url" +:+ q +:+ ":" +:+ quote_plain (GameURL g) +:+ ","
                         +:+ q +:+ "genre" +:+ q +:+ ":" +:+ quote_plain (Genre g) +:+ ","
                         +:+ q +:+ "platform" +:+ q +:+ ":" +:+ quote_plain (Platform g) +:+ ","
                         +:+ q +:+ "publisher" +:+ q +:+ ":" +:+ quote_plain (Publisher g) +:+ ","
                         +:+ q +:+ "developer" +:+ q +:+ ":" +:+ quote_plain (Developer g) +:+ ","
                         +:+ q +:+ "release_date" +:+ q +:+ ":" +:+ quote_plain (ReleaseDate g)
                         +:+ "}" +:+ n +:+ n);
                      Flush] (fresh_ctx true),
                mkWorld counter_source (store _ (sample_world old_catalog)) r'
                        (logs _ (sample_world old_catalog))).
Proof.
  split; [simpl; lia|]. intros q n.
  destruct (stream_message_framing counter_source quote_plain (fresh_ctx true)
              (sample_world old_catalog))
    as (g & r' & Hg & _ & Hs & _); [simpl; lia|].
  exists g, r'. split; [exact Hg|exact Hs].
Defined.

Lemma SetGames_atomic_witness :
  forallb initial sample_threads = true
  /\ (games (shared _ (exec counter_source sample_sched
                         (mkState counter_source (unlocked old_catalog) 0
                                  sample_threads)))
        ∈ catalogs old_catalog sample_threads)
  /\ forall k msg,
       threads _ (exec counter_source sample_sched
                    (mkState counter_source (unlocked old_catalog) 0
                             sample_threads)) !! k
       <> Some (Panicked msg).
Proof.
  split; [reflexivity|].
  pose proof (SetGames_atomic counter_source old_catalog 0 sample_threads
                sample_sched eq_refl) as H.
  cbv zeta in H. split; [exact (proj1 H)|exact (proj1 (proj2 H))].
Defined.

(** * Further properties of the server *)

(** ** [GetRandom] and the draw *)

(** [GetRandom] on a catalog that is not empty draws once, with the length
    of the catalog as the bound, and returns the game at the index drawn. *)
Theorem GetRandom_at_draw (R : RandSource) (s : GameStore) (r : rng R) :
  (1 <= length (games s))%nat ->
  exists g,
    games s !! Z.to_nat (draw R r (len (games s))).1 = Some g
    /\ GetRandom R s r = Ok ((g, true), (draw R r (len (games s))).2).
Proof.
  intros Hlen. unfold GetRandom.
  assert (0 < len (games s)) as Hpos by (unfold len; lia).
  destruct (decide (len (games s) = 0)) as [H0|_]; [lia|].
  unfold Intn. destruct (decide (len (games s) <= 0)) as [Hn|_]; [lia|].
  simpl. pose proof (draw_range R r _ Hpos) as Hi.
  destruct (index_in_range (games s) _ Hi) as (g & -> & Hg).
  by exists g.
Qed.

Section StreamRuns.

Context (R : RandSource) (encodeString : string -> string).

(** ** A session and the refresh loop do not disturb each other *)

Lemma main_refresh_store_logs (f : Fetch) (w1 w2 : World R) :
  store R w1 = store R w2 -> logs R w1 = logs R w2 ->
  store R (main_refresh R f w1) = store R (main_refresh R f w2)
  /\ logs R (main_refresh R f w1) = logs R (main_refresh R f w2).
Proof.
  intros Hs Hl. destruct f; unfold main_refresh; simpl; rewrite ?Hs, ?Hl; done.
Qed.

Lemma refresh_loop_store_logs (fs : list Fetch) (w1 w2 : World R) :
  store R w1 = store R w2 -> logs R w1 = logs R w2 ->
  store R (refresh_loop R fs w1) = store R (refresh_loop R fs w2)
  /\ logs R (refresh_loop R fs w1) = logs R (refresh_loop R fs w2).
Proof.
  revert w1 w2. induction fs as [|f fs IH]; intros w1 w2 Hs Hl; [done|].
  simpl. destruct (main_refresh_store_logs f w1 w2 Hs Hl). by apply IH.
Qed.

Lemma run_store_logs (es : list SysEvent) (s : Session) (w w0 : World R) :
  store R w = store R w0 -> logs R w = logs R w0 ->
  exists s' w',
    run R encodeString es (s, w) = Ok (s', w')
    /\ store R w' = store R (refresh_loop R (fetches es) w0)
    /\ logs R w' = logs R (refresh_loop R (fetches es) w0).
Proof.
  revert s w w0. induction es as [|e es IH]; intros s w w0 Hs Hl.
  - by exists s, w.
  - destruct e as [ev|f]; simpl.
    + unfold streamHandler_select. destruct (returned s); simpl.
      { by apply IH. }
      destruct ev; simpl.
      { by apply IH. }
      destruct (sendGame_one_message R encodeString (ctx s) w) as (m & r' & ->).
      simpl. by apply IH.
    + destruct (main_refresh_store_logs f w w0 Hs Hl). by apply IH.
Qed.

Lemma run_keeps_store_aux (es : list SysEvent) (s : Session) (w : World R) :
  exists s' w', run R encodeString es (s, w) = Ok (s', w').
Proof.
  destruct (run_store_logs es s w w eq_refl eq_refl) as (s' & w' & Hrun & _).
  by exists s', w'.
Qed.

(** No run of a session panics, whatever state it is in and whatever the
    events, and the session writes neither the store nor the log: both end
    as the refresh loop alone leaves them. *)
Theorem run_keeps_store (es : list SysEvent) (s : Session) (w : World R) :
  exists s' w',
    run R encodeString es (s, w) = Ok (s', w')
    /\ store R w' = store R (refresh_loop R (fetches es) w)
    /\ logs R w' = logs R (refresh_loop R (fetches es) w).
Proof. by apply run_store_logs. Qed.

(** ** The wire of a session *)

Lemma frames_cons (m : string) (ms : list string) :
  frames (m :: ms) = Fprintf m :: Flush :: frames ms.
Proof. reflexivity. Qed.

Lemma run_frames (es : list SysEvent) (s : Session) (w : World R) :
  returned s = false ->
  exists s' w' ms,
    run R encodeString es (s, w) = Ok (s', w')
    /\ wire (ctx s') = wire (ctx s) ++ frames ms
    /\ length ms = ticks (until_done es)
    /\ returned s' = existsb is_done es
    /\ ticker s' = (if existsb is_done es then Some false else ticker s).
Proof.
  revert s w. induction es as [|e es IH]; intros s w Hr.
  - exists s, w, []. simpl. by rewrite app_nil_r.
  - destruct e as [[]|f]; simpl.
    + unfold streamHandler_select. rewrite Hr. simpl.
      destruct (run_returned R encodeString es
                  (mkSession (ctx s) (Some false) true) w eq_refl) as [w' Hw].
      eexists _, w', []. rewrite Hw. simpl. by rewrite app_nil_r.
    + unfold streamHandler_select. rewrite Hr.
      destruct (sendGame_one_message R encodeString (ctx s) w) as (m & r' & ->).
      simpl.
      edestruct (IH (mkSession (send [Fprintf m; Flush] (ctx s)) (ticker s) false))
        as (s' & w' & ms & Hrun & Hw & Hlen & Hret & Htk); [done|].
      exists s', w', (m :: ms). rewrite Hrun.
      split_and!; [done| |by unfold ticks in *; simpl; rewrite Hlen|done|done].
      rewrite Hw. simpl. by rewrite <- app_assoc.
    + destruct (IH s (main_refresh R f w) Hr)
        as (s' & w' & ms & Hrun & Hw & Hlen & Hret & Htk).
      by exists s', w', ms.
Qed.

(** On a writer that can flush, everything a handler ever puts on the
    wire is messages, each written and flushed at once: one on entry and
    one for each tick before the first [ctx.Done]; it has returned exactly
    if a [ctx.Done] was among the events. *)
Theorem stream_wire_frames (c : GinContext) (w : World R) (es : list SysEvent) :
  isFlusher c = true ->
  exists s2 w2 ms,
    bind (streamHandler_enter R encodeString c w) (run R encodeString es)
    = Ok (s2, w2)
    /\ wire (ctx s2) = wire c ++ frames ms
    /\ length ms = S (ticks (until_done es))
    /\ returned s2 = existsb is_done es.
Proof.
  intros Hf. unfold streamHandler_enter. simpl. rewrite Hf. simpl.
  match goal with
  | |- context [sendGame R encodeString ?c0 w] =>
      destruct (sendGame_one_message R encodeString c0 w) as (m & r' & ->)
  end.
  simpl.
  match goal with
  | |- context [run R encodeString es (?s0, ?w0)] =>
      destruct (run_frames es s0 w0 eq_refl)
        as (s2 & w2 & ms & Hrun & Hw & Hlen & Hret & _)
  end.
  exists s2, w2, (m :: ms). rewrite Hrun.
  split_and!; [done| |simpl; by rewrite Hlen|done].
  rewrite Hw. simpl. by rewrite <- app_assoc.
Qed.

(** When the context is done the handler returns with its ticker stopped,
    and nothing that happens afterwards changes the session or its wire. *)
Theorem ctx_done_stops (es : list SysEvent) (s : Session) (w : World R) :
  returned s = false ->
  exists w',
    run R encodeString (Sel CtxDone :: es) (s, w)
    = Ok (mkSession (ctx s) (Some false) true, w').
Proof.
  intros Hr. simpl. unfold streamHandler_select. rewrite Hr. simpl.
  by apply run_returned.
Qed.

(** ** The response headers *)

Lemma run_Header (es : list SysEvent) (s s' : Session) (w w' : World R) :
  run R encodeString es (s, w) = Ok (s', w') ->
  Header (ctx s') = Header (ctx s).
Proof.
  revert s w. induction es as [|e es IH]; intros s w.
  - by intros [= <- <-].
  - destruct e as [ev|f]; simpl; [|by apply IH].
    unfold streamHandler_select. destruct (returned s); simpl; [by apply IH|].
    destruct ev; simpl.
    + intros H. by rewrite (IH _ _ H).
    + destruct (sendGame_one_message R encodeString (ctx s) w) as (m & r' & ->).
      simpl. intros H. by rewrite (IH _ _ H).
Qed.

(** From the moment [streamHandler] has reached its loop, and for the
    rest of the session whatever happens, the response headers hold the
    five values of an event stream, over whatever values these headers had,
    and no other header has been changed. *)
Theorem stream_headers (c : GinContext) (w : World R) (es : list SysEvent) :
  isFlusher c = true ->
  exists s2 w2,
    bind (streamHandler_enter R encodeString c w) (run R encodeString es)
    = Ok (s2, w2)
    /\ Header (ctx s2) !! "Content-Type" = Some "text/event-stream"
    /\ Header (ctx s2) !! "Cache-Control" = Some "no-cache"
    /\ Header (ctx s2) !! "Connection" = Some "keep-alive"
    /\ Header (ctx s2) !! "Access-Control-Allow-Origin" = Some "*"
    /\ Header (ctx s2) !! "X-Accel-Buffering" = Some "no"
    /\ (forall k,
          k ∉ [ "Content-Type"; "Cache-Control"; "Connection";
                "Access-Control-Allow-Origin"; "X-Accel-Buffering" ] ->
          Header (ctx s2) !! k = Header c !! k).
Proof.
  intros Hf.
  assert (exists s w', streamHandler_enter R encodeString c w = Ok (s, w')
            /\ Header (ctx s)
               = <["X-Accel-Buffering" := "no"]>
                   (<["Access-Control-Allow-Origin" := "*"]>
                      (<["Connection" := "keep-alive"]>
                         (<["Cache-Control" := "no-cache"]>
                            (<["Content-Type" := "text/event-stream"]>
                               (Header c))))))
    as (s & w' & Hs & HH).
  { unfold streamHandler_enter. simpl. rewrite Hf. simpl.
    match goal with
    | |- context [sendGame R encodeString ?c0 w] =>
        destruct (sendGame_one_message R encodeString c0 w) as (m & r' & ->)
    end.
    simpl. by eexists _, _. }
  rewrite Hs. simpl.
  destruct (run_keeps_store_aux es s w') as (s2 & w2 & Hrun).
  exists s2, w2. rewrite (run_Header _ _ _ _ _ Hrun), HH.
  split_and!; [done|by simplify_map_eq..|].
  intros k Hk.
  rewrite !lookup_insert_ne; [done|intros <-; apply Hk; set_solver..].
Qed.

(** ** The catalog after refreshes *)

Lemma last_decoded_acc (acc : option (list Game)) (fs : list Fetch) :
  foldl (fun acc f => match f with Decoded gs => Some gs | _ => acc end) acc fs
  = match last_decoded fs with
    | Some gs => Some gs
    | None => acc
    end.
Proof.
  unfold last_decoded. revert acc.
  induction fs as [|f fs IH]; intros acc; simpl; [done|].
  rewrite (IH (match f with Decoded gs => Some gs | _ => acc end)).
  rewrite (IH (match f with Decoded gs => Some gs | _ => None end)).
  destruct (foldl _ None fs); [done|]. by destruct f.
Qed.

Lemma last_decoded_cons (f : Fetch) (fs : list Fetch) :
  last_decoded (f :: fs)
  = match last_decoded fs with
    | Some gs => Some gs
    | None => match f with Decoded gs => Some gs | _ => None end
    end.
Proof. unfold last_decoded at 1. simpl. apply last_decoded_acc. Qed.

(** After any number of refreshes the store holds the catalog of the last
    fetch that decoded, or what it held before if none did; the lock is as
    it was, and each refresh has written one line to the log. *)
Theorem refresh_loop_last_decoded (fs : list Fetch) (w : World R) :
  store R (refresh_loop R fs w)
  = mkGameStore (default (games (store R w)) (last_decoded fs))
                (mu (store R w))
  /\ length (logs R (refresh_loop R fs w))
     = (length (logs R w) + length fs)%nat.
Proof.
  revert w. induction fs as [|f fs IH]; intros w.
  - simpl. split; [by destruct (store R w)|lia].
  - simpl. destruct (IH (main_refresh R f w)) as [-> ->].
    rewrite last_decoded_cons.
    destruct f; unfold main_refresh; simpl;
      rewrite ?length_app; simpl;
      (split; [by destruct (last_decoded fs)|lia]).
Qed.

(** Once a fetch has installed a catalog that is not empty, the next tick
    of a session sends a game of that catalog, whatever was installed
    before. *)
Theorem refresh_then_tick (gs : list Game) (s : Session) (w : World R) :
  returned s = false ->
  (1 <= length gs)%nat ->
  exists g s' w',
    run R encodeString [Refresh (Decoded gs); Sel TickerC] (s, w) = Ok (s', w')
    /\ g ∈ gs
    /\ messages (ctx s')
       = messages (ctx s)
         ++ ["data: " +:+ Marshal encodeString g +:+ nl +:+ nl].
Proof.
  intros Hr Hlen. simpl. unfold streamHandler_select. rewrite Hr.
  unfold main_refresh. simpl.
  match goal with
  | |- context [sendGame R encodeString ?c0 ?w0] =>
      destruct (sendGame_nonempty R encodeString c0 w0)
        as (g & r' & _ & Hin & ->)
  end.
  { simpl. intros ->. simpl in Hlen. lia. }
  simpl. eexists g, _, _. split_and!; [reflexivity|done|].
  simpl. by rewrite messages_send.
Qed.

End StreamRuns.

(** * Further properties of the store under concurrency *)

Section Runs.

Context (R : RandSource).

Lemma exec_app (a b : list nat) (st : State R) :
  exec R (a ++ b) st = exec R b (exec R a st).
Proof. revert st. induction a as [|k a IH]; intros st; [done|]. apply IH. Qed.

Lemma reachable_inv (old : list Game) (r : rng R) (ts : list Thread)
    (sched : list nat) :
  forallb initial ts = true ->
  inv R (catalogs old ts) (exec R sched (mkState R (unlocked old) r ts)).
Proof. intros Hts. apply exec_inv. by apply inv_init. Qed.

Lemma count_finished (p : Thread -> bool) (ts : list Thread) :
  (forall t, finished t = true -> p t = false) ->
  forallb finished ts = true -> count p ts = 0%nat.
Proof.
  intros Hp. induction ts as [|t ts IH]; simpl; [done|].
  intros [Ht Hts]%andb_prop. rewrite (Hp t Ht). simpl. by apply IH.
Qed.

Lemma lock_counts_free (m : RWMutex) (ts : list Thread) :
  lock_counts m ts -> forallb finished ts = true -> m = mkRWMutex false 0.
Proof.
  intros (Hr & Hw & _) Hfin.
  rewrite (count_finished reading _) in Hr; [|by intros []|done].
  rewrite (count_finished writing _) in Hw; [|by intros []|done].
  destruct m as [[] n]; simpl in *; [lia|by subst].
Qed.

(** At every point of a run the mutex counts exactly the threads between
    a lock and its unlock; every return path has released it, so once all
    calls have returned the mutex is free. *)
Theorem lock_released (old : list Game) (r : rng R) (ts : list Thread)
    (sched : list nat) :
  forallb initial ts = true ->
  let st := exec R sched (mkState R (unlocked old) r ts) in
  readers (mu (shared R st)) = count reading (threads R st)
  /\ (if writer (mu (shared R st)) then 1%nat else 0%nat)
     = count writing (threads R st)
  /\ (forallb finished (threads R st) = true ->
      mu (shared R st) = mkRWMutex false 0).
Proof.
  intros Hts st.
  destruct (reachable_inv old r ts sched Hts) as (HL & _ & _).
  fold st in HL. pose proof HL as (Hr & Hw & _).
  split_and!; [done|done|]. by apply lock_counts_free.
Qed.

Lemma thread_step_remaining (s s' : GameStore) (r r' : rng R) (t t' : Thread) :
  thread_step R s r t = Some (s', r', t') ->
  (remaining t' < remaining t)%nat.
Proof.
  destruct t; simpl; intros Hs;
    repeat match type of Hs with
           | context [Lock ?x] => destruct (Lock x); simpl in Hs
           | context [RLock ?x] => destruct (RLock x); simpl in Hs
           | context [Unlock ?x] => destruct (Unlock x); simpl in Hs
           | context [RUnlock ?x] => destruct (RUnlock x); simpl in Hs
           | context [decide ?x] => destruct (decide x); simpl in Hs
           | context [Intn ?a ?b ?c] => destruct (Intn a b c); simpl in Hs
           | context [index ?a ?b] => destruct (index a b); simpl in Hs
           end; simplify_eq; simpl; lia.
Qed.

Lemma work_insert (ts : list Thread) (k : nat) (t t' : Thread) :
  ts !! k = Some t ->
  (work (<[k := t']> ts) + remaining t = work ts + remaining t')%nat.
Proof.
  revert k. induction ts as [|a ts IH]; intros k Hk; [done|].
  destruct k as [|k]; simpl in *.
  - simplify_eq. lia.
  - specialize (IH k Hk). lia.
Qed.

Lemma unfinished_lookup (ts : list Thread) :
  forallb finished ts = false ->
  exists k t, ts !! k = Some t /\ finished t = false.
Proof.
  induction ts as [|a ts IH]; simpl; [done|].
  destruct (finished a) eqn:Ha; simpl.
  - intros Hts. destruct (IH Hts) as (k & t & Hk & Ht). by exists (S k), t.
  - intros _. by exists 0%nat, a.
Qed.

Lemma work_initial (ts : list Thread) : (work ts <= 5 * length ts)%nat.
Proof.
  induction ts as [|t ts IH]; simpl; [lia|].
  assert (remaining t <= 5)%nat by (destruct t; simpl; lia). lia.
Qed.

(** ** The lock with a waiting writer does not deadlock *)

Lemma step_work (j : nat) (tj : Thread) (st : State R) :
  threads R st !! j = Some tj ->
  is_Some (thread_step R (shared R st) (source R st) tj) ->
  (work (threads R (step R j st)) < work (threads R st))%nat.
Proof.
  intros Hj [[[s' r'] t'] Hx]. unfold step. rewrite Hj, Hx. simpl.
  pose proof (thread_step_remaining _ _ _ _ _ _ Hx).
  pose proof (work_insert _ j tj t' Hj). lia.
Qed.

Lemma step_wp_base (k : nat) (sw : StateW R) :
  base R (step_wp R k sw) = base R sw
  \/ base R (step_wp R k sw) = step R k (base R sw).
Proof.
  unfold step_wp.
  destruct (threads R (base R sw) !! k) as [t|]; [|by left].
  destruct t, (waiting R sw) as [j|]; simpl; auto;
    repeat match goal with
           | |- context [decide ?x] => destruct (decide x); simpl; auto
           | |- context [Lock ?x] => destruct (Lock x); simpl; auto
           | |- context [writer ?x] => destruct (writer x); simpl; auto
           end.
Qed.

Lemma step_wp_inv (C : list (list Game)) (k : nat) (sw : StateW R) :
  inv R C (base R sw) -> inv R C (base R (step_wp R k sw)).
Proof.
  intros Hinv. destruct (step_wp_base k sw) as [-> | ->]; [done|].
  by apply step_inv.
Qed.

Lemma thread_step_writer (s s' : GameStore) (r r' : rng R) (t t' : Thread) :
  thread_step R s r t = Some (s', r', t') ->
  (forall gs, t <> SetGames_Lock gs) ->
  writer (mu s) = false -> writer (mu s') = false.
Proof.
  destruct t as [gs0| | | | | | | | | | | | | |]; simpl; intros Hs Hne Hw;
    [by destruct (Hne gs0)|..];
    repeat match type of Hs with
           | context [RLock ?x] => unfold RLock in Hs; rewrite Hw in Hs; simpl in Hs
           | context [Unlock ?x] => unfold Unlock in Hs; rewrite Hw in Hs; simpl in Hs
           | context [RUnlock ?x] =>
               unfold RUnlock in Hs; destruct (readers x); simpl in Hs
           | context [decide ?x] => destruct (decide x); simpl in Hs
           | context [Intn ?a ?b ?c] => destruct (Intn a b c); simpl in Hs
           | context [index ?a ?b] => destruct (index a b); simpl in Hs
           end; simplify_eq; simpl; done.
Qed.

Lemma step_wp_waiting (k : nat) (sw : StateW R) :
  waiting_ok R sw -> waiting_ok R (step_wp R k sw).
Proof.
  intros HW. unfold step_wp.
  destruct (threads R (base R sw) !! k) as [t|] eqn:Hk; [|done].
  assert (forall j,
            waiting R sw = Some j ->
            (forall gs, t <> SetGames_Lock gs) ->
            waiting_ok R (mkStateW R (step R k (base R sw)) (Some j))) as Hdef.
  { intros j Hj Hne j' [= <-]. destruct (HW j Hj) as [[gs Hgs] Hw].
    assert (k <> j) as Hkj.
    { intros ->. rewrite Hk in Hgs. simplify_eq. by eapply Hne. }
    simpl. unfold step. rewrite Hk.
    destruct (thread_step R (shared R (base R sw)) (source R (base R sw)) t)
      as [[[s' r'] t']|] eqn:Hs; simpl.
    - split.
      + exists gs. by rewrite list_lookup_insert_ne.
      + by eapply thread_step_writer.
    - split; [by exists gs|done]. }
  destruct (waiting R sw) as [j|] eqn:Hwait.
  - destruct t; try (by apply (Hdef j)); try done.
    destruct (decide (j = k)); [|done].
    destruct (thread_step _ _ _ _); [|done]. by intros j' [=].
  - destruct t; try by intros j' [=].
    destruct (thread_step _ _ _ _); [by intros j' [=]|].
    destruct (writer (mu (shared R (base R sw)))) eqn:Hw; [exact HW|].
    intros j' [= <-]. simpl. split; [by eexists|done].
Qed.

Lemma exec_wp_inv (C : list (list Game)) (sched : list nat) (sw : StateW R) :
  inv R C (base R sw) -> waiting_ok R sw ->
  inv R C (base R (exec_wp R sched sw)) /\ waiting_ok R (exec_wp R sched sw).
Proof.
  revert sw. induction sched as [|k sched IH]; intros sw Hinv HW; [done|].
  simpl. apply IH; [by apply step_wp_inv|by apply step_wp_waiting].
Qed.

Lemma exec_wp_app (a b : list nat) (sw : StateW R) :
  exec_wp R (a ++ b) sw = exec_wp R b (exec_wp R a sw).
Proof. revert sw. induction a as [|k a IH]; intros sw; [done|]. apply IH. Qed.

Lemma reachable_wp (old : list Game) (r : rng R) (ts : list Thread)
    (sched : list nat) :
  forallb initial ts = true ->
  inv R (catalogs old ts) (base R (exec_wp R sched (start_wp R old r ts)))
  /\ waiting_ok R (exec_wp R sched (start_wp R old r ts)).
Proof.
  intros Hts. apply exec_wp_inv; [by apply inv_init|by intros j [=]].
Qed.

(** With the invariants, a thread that has not returned leaves a turn that
    runs a statement. *)
Lemma step_wp_progress (C : list (list Game)) (sw : StateW R) (k : nat)
    (t : Thread) :
  inv R C (base R sw) -> waiting_ok R sw ->
  threads R (base R sw) !! k = Some t -> finished t = false ->
  exists j,
    (work (threads R (base R (step_wp R j sw)))
     < work (threads R (base R sw)))%nat.
Proof.
  intros Hinv HW Hk Hfin. pose proof Hinv as ((Hr & Hw & Hex) & HC & HF).
  assert (forall j tj,
            threads R (base R sw) !! j = Some tj ->
            reading tj || writing tj = true ->
            (work (threads R (base R (step_wp R j sw)))
             < work (threads R (base R sw)))%nat) as Hinside.
  { intros j tj Hj Hin.
    assert (base R (step_wp R j sw) = step R j (base R sw)) as ->.
    { unfold step_wp. rewrite Hj.
      destruct tj, (waiting R sw); simpl in *; done. }
    apply (step_work j tj); [done|]. by apply thread_step_inside. }
  destruct (count reading (threads R (base R sw))) as [|nr] eqn:Hcr.
  2:{ destruct (count_pos_lookup reading (threads R (base R sw)))
        as (j & tj & Hj & Htj); [lia|].
      exists j. apply (Hinside j tj Hj). by rewrite Htj. }
  destruct (count writing (threads R (base R sw))) as [|nw] eqn:Hcw.
  2:{ destruct (count_pos_lookup writing (threads R (base R sw)))
        as (j & tj & Hj & Htj); [lia|].
      exists j. apply (Hinside j tj Hj). rewrite Htj. apply orb_true_r. }
  assert (mu (shared R (base R sw)) = mkRWMutex false 0) as Hfree.
  { destruct (mu (shared R (base R sw))) as [[] n]; simpl in *; [lia|].
    by subst. }
  destruct (waiting R sw) as [j|] eqn:Hwait.
  - destruct (HW j Hwait) as [[gs Hj] _]. exists j.
    assert (base R (step_wp R j sw) = step R j (base R sw)) as ->.
    { unfold step_wp. rewrite Hj, Hwait.
      destruct (decide (j = j)); [|done].
      simpl. rewrite Hfree. done. }
    apply (step_work j _ _ Hj). simpl. rewrite Hfree. by eexists.
  - pose proof (proj1 (Forall_lookup _ _) HF k t Hk) as Ht.
    pose proof (proj1 (Forall_lookup _ _) (count_zero_Forall _ _ Hcr) k t Hk) as Htr.
    pose proof (proj1 (Forall_lookup _ _) (count_zero_Forall _ _ Hcw) k t Hk) as Htw.
    exists k.
    assert (base R (step_wp R k sw) = step R k (base R sw)) as ->.
    { unfold step_wp. rewrite Hk, Hwait.
      destruct t; simpl in *; try done. by rewrite Hfree. }
    apply (step_work k t _ Hk).
    destruct t; simpl in *; try done; rewrite Hfree; by eexists.
Qed.

(** The lock cannot deadlock, also with writers going first: at every
    point of a run under [sync.RWMutex]'s rule, if a call has not returned
    there is a thread whose turn runs its next statement. *)
Theorem no_deadlock_waiting_writer (old : list Game) (r : rng R)
    (ts : list Thread) (sched : list nat) (k : nat) (t : Thread) :
  forallb initial ts = true ->
  let sw := exec_wp R sched (start_wp R old r ts) in
  threads R (base R sw) !! k = Some t ->
  finished t = false ->
  exists j,
    (work (threads R (base R (step_wp R j sw)))
     < work (threads R (base R sw)))%nat.
Proof.
  intros Hts sw Hk Hfin.
  destruct (reachable_wp old r ts sched Hts) as [Hinv HW].
  by eapply step_wp_progress.
Qed.

Lemma complete_from_wp (C : list (list Game)) (n : nat) (sw : StateW R) :
  inv R C (base R sw) -> waiting_ok R sw ->
  (work (threads R (base R sw)) <= n)%nat ->
  exists sched,
    (length sched <= n)%nat
    /\ forallb finished (threads R (base R (exec_wp R sched sw))) = true.
Proof.
  revert sw. induction n as [|n IH]; intros sw Hinv HW Hn.
  - destruct (forallb finished (threads R (base R sw))) eqn:Hall.
    { exists []. by split. }
    destruct (unfinished_lookup _ Hall) as (k & t & Hk & Ht).
    destruct (step_wp_progress C sw k t Hinv HW Hk Ht) as [j Hj]. lia.
  - destruct (forallb finished (threads R (base R sw))) eqn:Hall.
    { exists []. split; [simpl; lia|done]. }
    destruct (unfinished_lookup _ Hall) as (k & t & Hk & Ht).
    destruct (step_wp_progress C sw k t Hinv HW Hk Ht) as [j Hj].
    destruct (IH (step_wp R j sw)) as (sched & Hlen & Hfin);
      [by apply step_wp_inv|by apply step_wp_waiting|lia|].
    exists (j :: sched). split; [simpl; lia|done].
Qed.

Lemma exec_wp_length (sched : list nat) (sw : StateW R) :
  length (threads R (base R (exec_wp R sched sw)))
  = length (threads R (base R sw)).
Proof.
  revert sw. induction sched as [|k sched IH]; intros sw; [done|].
  simpl. rewrite IH.
  destruct (step_wp_base k sw) as [-> | ->]; [done|].
  unfold step. destruct (threads R (base R sw) !! k); [|done].
  destruct (thread_step _ _ _ _) as [[[? ?] ?]|]; [|done].
  simpl. apply length_insert.
Qed.

(** Every call can return, also with writers going first: whatever has
    run so far under [sync.RWMutex]'s rule, some further schedule of no
    more than five turns for each call brings all calls to their return,
    with the mutex free and no writer waiting. *)
Theorem calls_complete_waiting_writer (old : list Game) (r : rng R)
    (ts : list Thread) (sched : list nat) :
  forallb initial ts = true ->
  exists more,
    (length more <= 5 * length ts)%nat
    /\ let sw := exec_wp R (sched ++ more) (start_wp R old r ts) in
       forallb finished (threads R (base R sw)) = true
       /\ mu (shared R (base R sw)) = mkRWMutex false 0
       /\ waiting R sw = None.
Proof.
  intros Hts.
  destruct (reachable_wp old r ts sched Hts) as [Hinv HW].
  destruct (complete_from_wp _ (5 * length ts) _ Hinv HW) as (more & Hlen & Hfin).
  { etrans; [apply work_initial|]. rewrite exec_wp_length. simpl. lia. }
  exists more. split; [done|]. simpl.
  destruct (reachable_wp old r ts (sched ++ more) Hts) as [(HL & _ & _) HW'].
  rewrite exec_wp_app in *. split_and!; [done|by eapply lock_counts_free|].
  destruct (waiting R _) as [j|] eqn:Hwait; [|done].
  destruct (HW' j Hwait) as [[gs Hj] _].
  assert (finished (SetGames_Lock gs) = true); [|done].
  apply Is_true_true.
  apply (proj1 (Forall_lookup _ _)
           (proj1 (forallb_True _ _) (Is_true_true_2 _ Hfin)) j _ Hj).
Qed.

(** ** A write is not lost *)

Lemma thread_step_effect (s s' : GameStore) (r r' : rng R) (t t' : Thread) :
  thread_step R s r t = Some (s', r', t') ->
  (forall gs, pending t' = Some gs -> pending t = Some gs)
  /\ ((games s' = games s /\ (assigned t' = true -> assigned t = true))
      \/ exists gs, t = SetGames_assign gs /\ games s' = gs).
Proof.
  destruct t; simpl; intros Hs;
    repeat match type of Hs with
           | context [Lock ?x] => destruct (Lock x); simpl in Hs
           | context [RLock ?x] => destruct (RLock x); simpl in Hs
           | context [Unlock ?x] => destruct (Unlock x); simpl in Hs
           | context [RUnlock ?x] => destruct (RUnlock x); simpl in Hs
           | context [decide ?x] => destruct (decide x); simpl in Hs
           | context [Intn ?a ?b ?c] => destruct (Intn a b c); simpl in Hs
           | context [index ?a ?b] => destruct (index a b); simpl in Hs
           end; simplify_eq; simpl; (split; [done|]); eauto.
Qed.

(** What holds of the catalog installed, given the catalog [old] of the
    start and the catalogs [news] of the [SetGames] calls. *)
Lemma step_overwrites (old : list Game) (news : list (list Game)) (k : nat)
    (st : State R) :
  Forall (fun t => forall gs, pending t = Some gs -> gs ∈ news) (threads R st) ->
  games (shared R st) ∈ news
  \/ (games (shared R st) = old /\ count assigned (threads R st) = 0%nat) ->
  Forall (fun t => forall gs, pending t = Some gs -> gs ∈ news)
         (threads R (step R k st))
  /\ (games (shared R (step R k st)) ∈ news
      \/ (games (shared R (step R k st)) = old
          /\ count assigned (threads R (step R k st)) = 0%nat)).
Proof.
  intros HP HG. unfold step.
  destruct (threads R st !! k) as [t|] eqn:Hk; [|done].
  destruct (thread_step R (shared R st) (source R st) t)
    as [[[s' r'] t']|] eqn:Hs; [|done].
  simpl. destruct (thread_step_effect _ _ _ _ _ _ Hs) as [Hpend Heff].
  pose proof (proj1 (Forall_lookup _ _) HP k t Hk) as Ht.
  split.
  - apply Forall_insert; [done|]. intros gs Hgs. apply Ht. by apply Hpend.
  - destruct Heff as [[Hsame Hass]|(gs & -> & Hgs)].
    + rewrite Hsame. destruct HG as [HG|[HG Hc]]; [by left|right].
      split; [done|].
      pose proof (count_insert assigned _ k t t' Hk) as Hci.
      pose proof (proj1 (Forall_lookup _ _) (count_zero_Forall _ _ Hc) k t Hk) as Hf.
      simpl in Hf. destruct (assigned t') eqn:Ht'.
      * specialize (Hass eq_refl). congruence.
      * rewrite Hf in Hci. lia.
    + left. rewrite Hgs. by apply Ht.
Qed.

Lemma exec_overwrites (old : list Game) (news : list (list Game))
    (sched : list nat) (st : State R) :
  Forall (fun t => forall gs, pending t = Some gs -> gs ∈ news) (threads R st) ->
  games (shared R st) ∈ news
  \/ (games (shared R st) = old /\ count assigned (threads R st) = 0%nat) ->
  games (shared R (exec R sched st)) ∈ news
  \/ (games (shared R (exec R sched st)) = old
      /\ count assigned (threads R (exec R sched st)) = 0%nat).
Proof.
  revert st. induction sched as [|k sched IH]; intros st HP HG; [done|].
  simpl. destruct (step_overwrites old news k st HP HG). by apply IH.
Qed.

(** An assignment is not lost: as soon as one [SetGames] call has made
    its assignment, and so after any has returned, the store holds a
    catalog that some [SetGames] call was given, whatever the other calls
    do. *)
Theorem SetGames_not_lost (old : list Game) (r : rng R) (ts : list Thread)
    (sched : list nat) (k : nat) (t : Thread) :
  forallb initial ts = true ->
  let st := exec R sched (mkState R (unlocked old) r ts) in
  threads R st !! k = Some t ->
  assigned t = true ->
  games (shared R st) ∈ omap pending ts.
Proof.
  intros Hts st Hk Ht.
  assert (games (shared R st) ∈ omap pending ts
          \/ (games (shared R st) = old
              /\ count assigned (threads R st) = 0%nat)) as HG.
  { apply exec_overwrites.
    - simpl. apply Forall_forall. intros t0 Hin gs Hgs.
      apply list_elem_of_omap. by exists t0.
    - right. simpl. split; [done|].
      apply count_initial; [by intros []|done]. }
  destruct HG as [HG|[_ Hc]]; [done|].
  pose proof (count_lookup_pos assigned _ k t Hk Ht). lia.
Qed.

End Runs.

(** * Properties of the page script *)

(** ** The grid *)

Lemma removelast_take {A : Type} (l : list A) :
  removelast l = take (pred (length l)) l.
Proof.
  induction l as [|a l IH]; [done|].
  destruct l as [|b l]; [done|].
  change (removelast (a :: b :: l)) with (a :: removelast (b :: l)).
  rewrite IH. reflexivity.
Qed.

Lemma trim_grid_take {A : Type} (fuel : nat) (grid : list A) :
  (length grid - 20 <= fuel)%nat -> trim_grid fuel grid = take 20 grid.
Proof.
  revert grid. induction fuel as [|fuel IH]; intros grid Hf; simpl.
  - rewrite take_ge; [done|lia].
  - destruct (decide (20 < length grid)%nat) as [Hlt|Hle].
    + rewrite IH.
      * rewrite removelast_take, take_take. f_equal. lia.
      * rewrite removelast_take, length_take. lia.
    + rewrite take_ge; [done|lia].
Qed.

Lemma addGameCard_eq {A : Type} (card : A) (grid : list A) :
  addGameCard card grid = take 20 (card :: grid).
Proof. unfold addGameCard. apply trim_grid_take. simpl. lia. Qed.

(** [addGameCard] puts the new card first and keeps the twenty newest
    cards, whatever the grid held: its loop ends with at most twenty. *)
Theorem addGameCard_take {A : Type} (card : A) (grid : list A) :
  addGameCard card grid = take 20 (card :: grid)
  /\ (length (addGameCard card grid) <= 20)%nat
  /\ addGameCard card grid !! 0%nat = Some card.
Proof.
  rewrite addGameCard_eq. split_and!; [done| |done].
  rewrite length_take. lia.
Qed.

Section Pages.

Context (B : Browser).

(** ** Invariants of the page *)

Lemma page_run_snoc (es : list PageEvent) (e : PageEvent) (p : Page B) :
  page_run B (es ++ [e]) p = page_step B e (page_run B es p).
Proof. unfold page_run. by rewrite foldl_app. Qed.

(** The counter shown is the number of different ids seen since the page
    was loaded or last cleared: after any events, [discoveredCount] is the
    size of [discoveredGames] and [#discovered] shows it. *)
Theorem discovered_count (es : list PageEvent) :
  let p := page_run B es (page_init B) in
  discoveredCount p = Z.of_nat (size (discoveredGames p))
  /\ discovered p = pretty (discoveredCount p).
Proof.
  simpl. induction es as [|e es IH] using rev_ind.
  - split; [|done]. unfold page_run, page_init. cbn [foldl discoveredCount discoveredGames].
    by rewrite size_empty.
  - rewrite page_run_snoc. destruct IH as [IHc IHd].
    set (p := page_run B es (page_init B)) in *.
    assert (forall data,
              discoveredCount (onmessage B data p)
              = Z.of_nat (size (discoveredGames (onmessage B data p)))
              /\ discovered (onmessage B data p)
                 = pretty (discoveredCount (onmessage B data p))) as Hmsg.
    { intros data. unfold onmessage.
      destruct (JSON_parse B data) as [game|]; [|done].
      destruct (get_id B game) as [k|]; [|done].
      destruct (decide (k ∈ discoveredGames p)) as [Hin|Hnin];
        destruct (render_card B game); simpl; try done.
      - rewrite size_union, size_singleton by set_solver. split; [lia|done].
      - rewrite size_union, size_singleton by set_solver. split; [lia|done]. }
    destruct e; simpl; try done.
    + unfold startStream. by destruct (eventSource p).
    + by destruct (eventSource p).
    + by destruct (eventSource p).
    + unfold reconnect. by destruct (eventSource p).
Qed.

(** After any events the grid holds at most twenty cards. *)
Theorem grid_bounded (es : list PageEvent) :
  (length (gamesGrid (page_run B es (page_init B))) <= 20)%nat.
Proof.
  induction es as [|e es IH] using rev_ind.
  - simpl. lia.
  - rewrite page_run_snoc.
    set (p := page_run B es (page_init B)) in *.
    destruct e; simpl; try done.
    + unfold startStream. by destruct (eventSource p).
    + lia.
    + destruct (eventSource p); [|done]. unfold onmessage.
      destruct (JSON_parse B data) as [game|]; [|done].
      destruct (get_id B game) as [k|]; [|done].
      destruct (decide (k ∈ discoveredGames p));
        destruct (render_card B game) as [card|]; simpl; try done.
      * unfold addGameCard. rewrite trim_grid_take by (simpl; lia).
        rewrite length_take. lia.
      * unfold addGameCard. rewrite trim_grid_take by (simpl; lia).
        rewrite length_take. lia.
    + by destruct (eventSource p).
    + unfold reconnect. by destruct (eventSource p).
Qed.

(** The buttons follow the stream: after any events, while a source is
    open START is disabled and STOP enabled, and the other way round while
    none is. *)
Theorem buttons_follow_stream (es : list PageEvent) :
  let p := page_run B es (page_init B) in
  startBtn_disabled p = bool_decide (is_Some (eventSource p))
  /\ stopBtn_disabled p = negb (startBtn_disabled p).
Proof.
  simpl. induction es as [|e es IH] using rev_ind; [done|].
  rewrite page_run_snoc.
  set (p := page_run B es (page_init B)) in *.
  assert (forall data,
            eventSource (onmessage B data p) = eventSource p
            /\ startBtn_disabled (onmessage B data p) = startBtn_disabled p
            /\ stopBtn_disabled (onmessage B data p) = stopBtn_disabled p)
    as Hmsg.
  { intros data. unfold onmessage.
    destruct (JSON_parse B data) as [game|]; [|done].
    destruct (get_id B game) as [k|]; [|done].
    by destruct (decide (k ∈ discoveredGames p)), (render_card B game). }
  destruct IH as [IH1 IH2].
  destruct e; simpl; try done.
  - unfold startStream. destruct (eventSource p) eqn:He; [|done].
    by rewrite ?He.
  - destruct (eventSource p) eqn:He; [|by rewrite ?He].
    destruct (Hmsg data) as (H1 & H2 & H3). by rewrite H1, H2, H3.
  - destruct (eventSource p) eqn:He; unfold onerror; simpl; by rewrite ?He.
  - unfold reconnect.
    destruct (eventSource p) eqn:He; simpl; by rewrite ?He.
Qed.

(** ** One message *)

(** A message whose data parses and has an id records the id, counting it
    once, before the card is made: when the template of the card throws
    the id stays recorded and the grid is as it was; otherwise the card
    goes in front of the twenty newest. *)
Theorem onmessage_records_id (data : string) (game : JsValue B) (k : Key B)
    (p : Page B) :
  JSON_parse B data = Some game ->
  get_id B game = Some k ->
  let p' := onmessage B data p in
  discoveredGames p' = {[k]} ∪ discoveredGames p
  /\ discoveredCount p'
     = discoveredCount p + (if decide (k ∈ discoveredGames p) then 0 else 1)
  /\ gamesGrid p'
     = match render_card B game with
       | Some card => take 20 (card :: gamesGrid p)
       | None => gamesGrid p
       end.
Proof.
  intros Hparse Hid. simpl. unfold onmessage. rewrite Hparse, Hid.
  destruct (decide (k ∈ discoveredGames p)) as [Hin|Hnin];
    destruct (render_card B game) as [card|]; simpl;
    rewrite ?addGameCard_eq;
    (split_and!; [set_solver|lia|done]).
Qed.

(** CLEAR does not stop the stream, and no message hides the placeholder
    again: after a clear while a source is open, the next message that
    yields a card is counted as the first discovery and its card is alone
    in the grid, with the placeholder of the empty grid still shown. *)
Theorem clear_keeps_placeholder (data url : string) (game : JsValue B)
    (k : Key B) (card : Card B) (p : Page B) :
  eventSource p = Some url ->
  JSON_parse B data = Some game ->
  get_id B game = Some k ->
  render_card B game = Some card ->
  let p' := page_run B [ClickClear; Message data] p in
  eventSource p' = Some url
  /\ gamesGrid p' = [card]
  /\ discoveredCount p' = 1
  /\ discovered p' = "1"
  /\ emptyState_hidden p' = false.
Proof.
  intros Hsrc Hparse Hid Hcard. unfold page_run. simpl. rewrite Hsrc.
  unfold onmessage. rewrite Hparse, Hid, Hcard. simpl.
  destruct (decide (k ∈ (∅ : gset (Key B)))) as [Hin|_]; [set_solver|].
  simpl. by rewrite addGameCard_eq.
Qed.

End Pages.

(** ** The further theorems at the sample data *)

Lemma GetRandom_at_draw_witness :
  (1 <= length (games (unlocked old_catalog)))%nat
  /\ exists g,
       games (unlocked old_catalog)
         !! Z.to_nat (draw counter_source 3 (len (games (unlocked old_catalog)))).1
       = Some g
       /\ GetRandom counter_source (unlocked old_catalog) 3
          = Ok ((g, true),
                (draw counter_source 3 (len (games (unlocked old_catalog)))).2).
Proof.
  split; [simpl; lia|].
  apply (GetRandom_at_draw counter_source (unlocked old_catalog) 3).
  simpl; lia.
Defined.

Lemma stream_wire_frames_witness :
  isFlusher (fresh_ctx true) = true
  /\ exists s2 w2 ms,
       bind (streamHandler_enter counter_source quote_plain (fresh_ctx true)
               (sample_world old_catalog))
            (run counter_source quote_plain
               (sample_events ++ [Sel CtxDone; Sel TickerC]))
       = Ok (s2, w2)
       /\ wire (ctx s2) = wire (fresh_ctx true) ++ frames ms
       /\ length ms
          = S (ticks (until_done (sample_events ++ [Sel CtxDone; Sel TickerC])))
       /\ returned s2
          = existsb is_done (sample_events ++ [Sel CtxDone; Sel TickerC]).
Proof.
  split; [reflexivity|].
  apply (stream_wire_frames counter_source quote_plain (fresh_ctx true)
           (sample_world old_catalog)
           (sample_events ++ [Sel CtxDone; Sel TickerC])).
  reflexivity.
Defined.

Lemma ctx_done_stops_witness :
  returned (mkSession (fresh_ctx true) (Some true) false) = false
  /\ exists w',
       run counter_source quote_plain (Sel CtxDone :: sample_events)
         (mkSession (fresh_ctx true) (Some true) false, sample_world old_catalog)
       = Ok (mkSession (fresh_ctx true) (Some false) true, w').
Proof.
  split; [reflexivity|].
  apply (ctx_done_stops counter_source quote_plain sample_events
           (mkSession (fresh_ctx true) (Some true) false)
           (sample_world old_catalog)).
  reflexivity.
Defined.

Lemma refresh_then_tick_witness :
  returned (mkSession (fresh_ctx true) (Some true) false) = false
  /\ (1 <= length new_catalog)%nat
  /\ exists g s' w',
       run counter_source quote_plain
         [Refresh (Decoded new_catalog); Sel TickerC]
         (mkSession (fresh_ctx true) (Some true) false, sample_world old_catalog)
       = Ok (s', w')
       /\ g ∈ new_catalog
       /\ messages (ctx s')
          = messages (fresh_ctx true)
            ++ ["data: " +:+ Marshal quote_plain g +:+ nl +:+ nl].
Proof.
  split; [reflexivity|]. split; [simpl; lia|].
  apply (refresh_then_tick counter_source quote_plain new_catalog
           (mkSession (fresh_ctx true) (Some true) false)
           (sample_world old_catalog)); [reflexivity|simpl; lia].
Defined.

Lemma lock_released_witness :
  forallb initial sample_threads = true
  /\ (forallb finished
        (threads _ (exec counter_source sample_sched
                      (mkState counter_source (unlocked old_catalog) 0
                               sample_threads))) = true ->
      mu (shared _ (exec counter_source sample_sched
                      (mkState counter_source (unlocked old_catalog) 0
                               sample_threads)))
      = mkRWMutex false 0).
Proof.
  split; [reflexivity|].
  exact (proj2 (proj2 (lock_released counter_source old_catalog 0
                         sample_threads sample_sched eq_refl))).
Defined.

Lemma stream_headers_witness :
  isFlusher (fresh_ctx true) = true
  /\ exists s2 w2,
       bind (streamHandler_enter counter_source quote_plain (fresh_ctx true)
               (sample_world old_catalog))
            (run counter_source quote_plain sample_events)
       = Ok (s2, w2)
       /\ Header (ctx s2) !! "Content-Type" = Some "text/event-stream"
       /\ Header (ctx s2) !! "X-Accel-Buffering" = Some "no".
Proof.
  split; [reflexivity|].
  destruct (stream_headers counter_source quote_plain (fresh_ctx true)
              (sample_world old_catalog) sample_events eq_refl)
    as (s2 & w2 & Hrun & H1 & _ & _ & _ & H5 & _).
  exists s2, w2. split; [exact Hrun|]. split; [exact H1|exact H5].
Defined.

Lemma no_deadlock_waiting_writer_witness :
  forallb initial sample_threads = true
  /\ threads _ (base _ (exec_wp counter_source [0; 5; 1]%nat
                          (start_wp counter_source old_catalog 0%Z sample_threads)))
       !! 1%nat
     = Some GetRandom_RLock
  /\ finished GetRandom_RLock = false
  /\ exists j,
       (work (threads _ (base _ (step_wp counter_source j
                 (exec_wp counter_source [0; 5; 1]%nat
                    (start_wp counter_source old_catalog 0%Z sample_threads)))))
        < work (threads _ (base _
                 (exec_wp counter_source [0; 5; 1]%nat
                    (start_wp counter_source old_catalog 0%Z sample_threads)))))%nat.
Proof.
  split; [reflexivity|]. split; [reflexivity|]. split; [reflexivity|].
  apply (no_deadlock_waiting_writer counter_source old_catalog 0%Z sample_threads
           [0; 5; 1]%nat 1%nat GetRandom_RLock);
    reflexivity.
Defined.

Lemma calls_complete_waiting_writer_witness :
  forallb initial sample_threads = true
  /\ exists more,
       (length more <= 5 * length sample_threads)%nat
       /\ forallb finished
            (threads _ (base _ (exec_wp counter_source ([0; 5; 1]%nat ++ more)
                                  (start_wp counter_source old_catalog 0
                                            sample_threads)))) = true.
Proof.
  split; [reflexivity|].
  destruct (calls_complete_waiting_writer counter_source old_catalog 0
              sample_threads [0; 5; 1]%nat eq_refl)
    as (more & Hlen & Hfin & _).
  exists more. split; [exact Hlen|exact Hfin].
Defined.

(** A reader that arrives while the writer waits is held back. *)
Example sample_reader_waits :
  let sw := exec_wp counter_source [0; 5; 1; 1]%nat
              (start_wp counter_source old_catalog 0 sample_threads) in
  waiting _ sw = Some 5%nat
  /\ threads _ (base _ sw) !! 0%nat = Some GetRandom_len
  /\ threads _ (base _ sw) !! 1%nat = Some GetRandom_RLock
  /\ threads _ (base _ sw) !! 5%nat = Some (SetGames_Lock new_catalog).
Proof. vm_compute. done. Qed.

Lemma SetGames_not_lost_witness :
  forallb initial sample_threads = true
  /\ threads _ (exec counter_source sample_sched
                  (mkState counter_source (unlocked old_catalog) 0
                           sample_threads)) !! 5%nat
     = Some SetGames_done
  /\ assigned SetGames_done = true
  /\ games (shared _ (exec counter_source sample_sched
                        (mkState counter_source (unlocked old_catalog) 0
                                 sample_threads)))
       ∈ omap pending sample_threads.
Proof.
  split; [reflexivity|]. split; [vm_compute; reflexivity|].
  split; [reflexivity|].
  apply (SetGames_not_lost counter_source old_catalog 0 sample_threads
           sample_sched 5%nat SetGames_done);
    [reflexivity|vm_compute; reflexivity|reflexivity].
Defined.

Lemma onmessage_records_id_witness :
  JSON_parse sample_browser "thirteen long" = Some 13
  /\ get_id sample_browser 13 = Some 13
  /\ discoveredGames (onmessage sample_browser "thirteen long"
                        (page_init sample_browser))
     = {[13]} ∪ discoveredGames (page_init sample_browser)
  /\ gamesGrid (onmessage sample_browser "thirteen long"
                  (page_init sample_browser))
     = gamesGrid (page_init sample_browser).
Proof.
  split; [reflexivity|]. split; [reflexivity|].
  destruct (onmessage_records_id sample_browser "thirteen long" 13 13
              (page_init sample_browser) eq_refl eq_refl) as (Hs & _ & Hg).
  split; [exact Hs|exact Hg].
Defined.

Lemma clear_keeps_placeholder_witness :
  eventSource (startStream sample_browser (page_init sample_browser))
  = Some "/stream"
  /\ JSON_parse sample_browser "four" = Some 4
  /\ get_id sample_browser 4 = Some 4
  /\ render_card sample_browser 4 = Some 4
  /\ emptyState_hidden
       (page_run sample_browser [ClickClear; Message "four"]
          (startStream sample_browser (page_init sample_browser)))
     = false.
Proof.
  split; [reflexivity|]. split; [reflexivity|]. split; [reflexivity|].
  split; [reflexivity|].
  destruct (clear_keeps_placeholder sample_browser "four" "/stream" 4 4 4
              (startStream sample_browser (page_init sample_browser))
              eq_refl eq_refl eq_refl eq_refl) as (_ & _ & _ & _ & Hh).
  exact Hh.
Defined.
